(** * hellacopy: the entity simulation of game/lib/main.py

    A shallow embedding of the sprite classes ([SuperSprite], [Helicopter],
    [Player], [EnemyHeli], [GunTurret], [MissleTurret], [Artillery]), of
    [tile_block] and of the main loop [SuperTilevid.run] of
    [game/lib/main.py], followed by the properties of the specification.

    Python objects are shared and mutable: every sprite lives in a heap
    ([g_heap], a finite map from object identities to [Actor] records) and
    [g.sprites] is a list of identities, so that a snapshot of the list
    ([self.sprites[:]]) still reaches the current state of its sprites.
    Integers are unbounded ([Z]); [/] and [%] on them are Python 2's floor
    division and modulo, which is what [Z.div] and [Z.modulo] compute. *)

From Stdlib Require Import ZArith Lia.
From stdpp Require Import base option list gmap strings pretty.

#[local] Open Scope Z_scope.

(** ** Module constants *)

Definition SCREEN_WIDTH : Z := 240.
Definition SCREEN_HEIGHT : Z := 240.
Definition TILE_WIDTH : Z := 16.
Definition TILE_HEIGHT : Z := 16.
Definition SPEED : Z := 2.
Definition FPS : Z := 40.

(** ** pygame.Rect

    A rectangle is its top-left corner and its size. The derived
    attributes and their setters are those of pygame: assigning [bottom],
    [right] or [center] moves the rectangle and keeps its size. pygame
    computes centres and [clamp] with C's truncating division, [Z.quot]. *)

Record Rect := mkRect { rx : Z; ry : Z; rw : Z; rh : Z }.

#[global] Instance Rect_eq_dec : EqDecision Rect.
Proof. solve_decision. Defined.

Definition left (r : Rect) : Z := rx r.
Definition top (r : Rect) : Z := ry r.
Definition right (r : Rect) : Z := rx r + rw r.
Definition bottom (r : Rect) : Z := ry r + rh r.
Definition centerx (r : Rect) : Z := rx r + rw r ÷ 2.
Definition centery (r : Rect) : Z := ry r + rh r ÷ 2.
Definition center (r : Rect) : Z * Z := (centerx r, centery r).

Definition set_x (v : Z) (r : Rect) : Rect := mkRect v (ry r) (rw r) (rh r).
Definition set_y (v : Z) (r : Rect) : Rect := mkRect (rx r) v (rw r) (rh r).
Definition set_left (v : Z) (r : Rect) : Rect := set_x v r.
Definition set_top (v : Z) (r : Rect) : Rect := set_y v r.
Definition set_right (v : Z) (r : Rect) : Rect := set_x (v - rw r) r.
Definition set_bottom (v : Z) (r : Rect) : Rect := set_y (v - rh r) r.
Definition set_center (c : Z * Z) (r : Rect) : Rect :=
  mkRect (c.1 - rw r ÷ 2) (c.2 - rh r ÷ 2) (rw r) (rh r).

(** [Rect.clamp_ip]: move the rectangle inside [arg]; on an axis where it
    does not fit strictly it is centred on [arg]. *)
Definition clamp_axis (x w ax aw : Z) : Z :=
  if w >=? aw then ax + aw ÷ 2 - w ÷ 2
  else if x <? ax then ax
  else if x + w >? ax + aw then ax + aw - w
  else x.

Definition clamp_ip (arg r : Rect) : Rect :=
  mkRect (clamp_axis (rx r) (rw r) (rx arg) (rw arg))
         (clamp_axis (ry r) (rh r) (ry arg) (rh arg))
         (rw r) (rh r).

(** [Rect.colliderect] *)
Definition overlap_axis (a aw b bw : Z) : bool :=
  ((a >=? b) && (a <? b + bw)) || ((b >=? a) && (b <? a + aw)).

Definition colliderect (a b : Rect) : bool :=
  overlap_axis (rx a) (rw a) (rx b) (rw b) &&
  overlap_axis (ry a) (rh a) (ry b) (rh b).

(** The rectangle lies entirely inside another one. *)
Definition inside (r v : Rect) : Prop :=
  left v <= left r /\ right r <= right v /\
  top v <= top r /\ bottom r <= bottom v.

(** ** Angles, images and the environment

    The game computes launch angles, rotations and the sine and circle
    trajectories in floating point. Angles are kept as the expressions
    that produce them; what pygame and [math] make of them is the
    environment [Env], over which every definition below is parametric. *)

Inductive Angle :=
| HalfPi                        (* 0.5 * math.pi *)
| ThreeHalfPi                   (* 1.5 * math.pi *)
| Atan2 (y x : Z).              (* math.atan2(y, x) *)

#[global] Instance Angle_eq_dec : EqDecision Angle.
Proof. solve_decision. Defined.

(** [rad_to_ccw]: radians to a counterclockwise angle in degrees,
    [math.degrees(rad) + 90]. *)
Inductive Degrees := DegreesPlus90 (rad : Angle).

#[global] Instance Degrees_eq_dec : EqDecision Degrees.
Proof. solve_decision. Defined.

Definition rad_to_ccw (rad : Angle) : Degrees := DegreesPlus90 rad.

(** What [self.image] refers to: an entry of [g.images], the transparent
    [blank_image], or a rotation of another image. *)
Inductive Image :=
| Img (name : string)
| BlankImage
| Rotated (img : Image) (deg : Degrees).

#[global] Instance Image_eq_dec : EqDecision Image.
Proof. solve_decision. Defined.

Record Env := {
  (* the size of [pygame.transform.rotate(img, deg).get_rect()] *)
  rotated_size : Image -> Degrees -> Z * Z;
  (* [rect.x] after [rect.x += math.cos(angle) * speed]; the speed is
     given in tenths, 5.5 is 55 *)
  shot_x : Angle -> Z -> Z -> Z;
  (* [rect.y] after [rect.y += -math.sin(angle) * speed - SPEED] *)
  shot_y : Angle -> Z -> Z -> Z;
  (* [rect.x] after [rect.x = origin.x + 65 * math.sin(uptime / 10.0)] *)
  sine_x : Z -> Z -> Z;
  (* [rect.x] after [rect.x = origin.x + 50 * math.cos(uptime / 10.0)] *)
  circle_x : Z -> Z -> Z;
  (* [rect.y] after [rect.y = origin.y + 50 * math.sin(uptime / 10.0)] *)
  circle_y : Z -> Z -> Z;
  (* the n-th result of [random.randint(0, 30)] *)
  randint : nat -> Z
}.

(** ** Sprites *)

(** The enemy movement handlers, stored in [self.move]. *)
Inductive Move := move_line | move_sine | move_circle.

#[global] Instance Move_eq_dec : EqDecision Move.
Proof. solve_decision. Defined.

(** The class of a sprite together with what its constructor stores per
    instance: [EnemyHeli] keeps [value['move']]; [Artillery] overwrites
    the class attributes [default_image_name], [default_group_name],
    [default_agroup_name] and [collision_damage] on the instance and keeps
    its velocity ([math.cos(angle) * speed], [-math.sin(angle) * speed]),
    held here as the angle and the speed in tenths. *)
Inductive Kind :=
| Player
| EnemyHeli (move : Move)
| GunTurret
| MissleTurret
| Artillery (image_name group_name agroup_name : string)
            (damage : Z) (angle : Angle) (speed : Z).

#[global] Instance Kind_eq_dec : EqDecision Kind.
Proof. solve_decision. Defined.

(** [self.animator_func]: the bound method [default_animator] or one of
    the closures; the counter of a closure is its [f.count]. *)
Inductive Animator :=
| DefaultAnimator
| DamagedAnimator (count : Z)
| DestroyedAnimator (count : Z)
| AlternatingAnimator (num_images frames_per_image : Z) (image_name_format : string).

#[global] Instance Animator_eq_dec : EqDecision Animator.
Proof. solve_decision. Defined.

Definition is_destroyed (f : Animator) : bool :=
  match f with DestroyedAnimator _ => true | _ => false end.

Record Actor := mkActor {
  kind : Kind;
  rect : Rect;
  _rect : Rect;                 (* the rectangle of the previous frame *)
  origin : Rect;
  image : Image;
  groups : gset string;
  agroups : gset string;
  hitcount : Z;
  invincible : bool;
  first_frame : Z;
  animator_func : Animator;
  score : Z;                    (* Player *)
  red_alert : bool;             (* Player: hasattr(self, 'red_alert') *)
  rad : option Angle;           (* turrets, set by loop_func *)
  orig_image : Image;           (* turrets *)
  orig_center : Z * Z           (* turrets *)
}.

Definition with_rect (v : Rect) (a : Actor) : Actor :=
  mkActor (kind a) v (_rect a) (origin a) (image a) (groups a) (agroups a)
    (hitcount a) (invincible a) (first_frame a) (animator_func a) (score a)
    (red_alert a) (rad a) (orig_image a) (orig_center a).
Definition with__rect (v : Rect) (a : Actor) : Actor :=
  mkActor (kind a) (rect a) v (origin a) (image a) (groups a) (agroups a)
    (hitcount a) (invincible a) (first_frame a) (animator_func a) (score a)
    (red_alert a) (rad a) (orig_image a) (orig_center a).
Definition with_image (v : Image) (a : Actor) : Actor :=
  mkActor (kind a) (rect a) (_rect a) (origin a) v (groups a) (agroups a)
    (hitcount a) (invincible a) (first_frame a) (animator_func a) (score a)
    (red_alert a) (rad a) (orig_image a) (orig_center a).
Definition with_hitcount (v : Z) (a : Actor) : Actor :=
  mkActor (kind a) (rect a) (_rect a) (origin a) (image a) (groups a) (agroups a)
    v (invincible a) (first_frame a) (animator_func a) (score a)
    (red_alert a) (rad a) (orig_image a) (orig_center a).
Definition with_invincible (v : bool) (a : Actor) : Actor :=
  mkActor (kind a) (rect a) (_rect a) (origin a) (image a) (groups a) (agroups a)
    (hitcount a) v (first_frame a) (animator_func a) (score a)
    (red_alert a) (rad a) (orig_image a) (orig_center a).
Definition with_animator_func (v : Animator) (a : Actor) : Actor :=
  mkActor (kind a) (rect a) (_rect a) (origin a) (image a) (groups a) (agroups a)
    (hitcount a) (invincible a) (first_frame a) v (score a)
    (red_alert a) (rad a) (orig_image a) (orig_center a).
Definition with_score (v : Z) (a : Actor) : Actor :=
  mkActor (kind a) (rect a) (_rect a) (origin a) (image a) (groups a) (agroups a)
    (hitcount a) (invincible a) (first_frame a) (animator_func a) v
    (red_alert a) (rad a) (orig_image a) (orig_center a).
Definition with_red_alert (v : bool) (a : Actor) : Actor :=
  mkActor (kind a) (rect a) (_rect a) (origin a) (image a) (groups a) (agroups a)
    (hitcount a) (invincible a) (first_frame a) (animator_func a) (score a)
    v (rad a) (orig_image a) (orig_center a).
Definition with_rad (v : option Angle) (a : Actor) : Actor :=
  mkActor (kind a) (rect a) (_rect a) (origin a) (image a) (groups a) (agroups a)
    (hitcount a) (invincible a) (first_frame a) (animator_func a) (score a)
    (red_alert a) v (orig_image a) (orig_center a).

(** *** Class attributes

    What the classes define, as functions of the class; an [Artillery]
    carries the values its constructor was given. *)

Definition default_image_name (k : Kind) : string :=
  match k with
  | Player => "player_helicopter-0"
  | EnemyHeli _ => "enemy_helicopter-0"
  | GunTurret => "gun_turret"
  | MissleTurret => "missle_turret"
  | Artillery image_name _ _ _ _ _ => image_name
  end.

Definition default_group_name (k : Kind) : string :=
  match k with
  | Player => "player"
  | EnemyHeli _ | GunTurret | MissleTurret => "enemy"
  | Artillery _ group_name _ _ _ _ => group_name
  end.

Definition default_agroup_name (k : Kind) : string :=
  match k with
  | Player => "enemy"
  | EnemyHeli _ | GunTurret | MissleTurret => "player"
  | Artillery _ _ agroup_name _ _ _ => agroup_name
  end.

Definition default_hitcount (k : Kind) : Z :=
  match k with
  | Player => 10
  | EnemyHeli _ => 1
  | GunTurret | MissleTurret => 3
  | Artillery _ _ _ _ _ _ => 1
  end.

Definition collision_damage (k : Kind) : Z :=
  match k with
  | Player => 2
  | EnemyHeli _ => 1
  | GunTurret => 1
  | MissleTurret => 2
  | Artillery _ _ _ damage _ _ => damage
  end.

Definition invincible_time (k : Kind) : Z :=
  match k with
  | Player => 45
  | _ => 5
  end.

Definition blade_image_format (k : Kind) : string :=
  match k with
  | Player => "player_helicopter-"
  | _ => "enemy_helicopter-"
  end.

Definition shot_image (k : Kind) : string :=
  match k with
  | MissleTurret => "missle"
  | _ => "gun_bullet"
  end.

(** [shot_speed], in tenths: 5.5 and 5. *)
Definition shot_speed (k : Kind) : Z :=
  match k with
  | MissleTurret => 50
  | _ => 55
  end.

Definition shot_freq (k : Kind) : Z :=
  match k with
  | MissleTurret => 30
  | _ => 20
  end.

#[global] Instance Actor_inhabited : Inhabited Actor :=
  populate (mkActor Player (mkRect 0 0 0 0) (mkRect 0 0 0 0) (mkRect 0 0 0 0)
              BlankImage ∅ ∅ 0 false 0 DefaultAnimator 0 false None
              BlankImage (0, 0)).

(** ** The game object *)

(** The Tilevid classes [next_vid] can hold. *)
Inductive Screen :=
| SplashScreenTilevid
| LevelTilevid
| GameOverTilevid
| WinnerTilevid.

#[global] Instance Screen_eq_dec : EqDecision Screen.
Proof. solve_decision. Defined.

(** Both closures called [task] do the same: [self.invincible = True]. *)
Inductive Task := SetInvincible (self : nat).

#[global] Instance Task_eq_dec : EqDecision Task.
Proof. solve_decision. Defined.

(** What the program does to the sound card, the screen and the clock,
    most recent first. *)
Inductive Effect :=
| PlayWav (name : string) (args : list Z)
| ScreenFill
| Paint
| DrawScoreboard (score hits : Z)
| DisplayFlip
| ToggleFullscreen
| TimerTick.

#[global] Instance Effect_eq_dec : EqDecision Effect.
Proof. solve_decision. Defined.

Record World := mkWorld {
  g_heap : gmap nat Actor;      (* the sprite objects, by identity *)
  g_next_id : nat;              (* the identity of the next object *)
  sprites : list nat;           (* g.sprites *)
  view : Rect;
  bounds : Rect;
  clayer : list (list Z);
  frame : Z;
  post_frame_tasks : list Task;
  next_vid : option Screen;
  quit : bool;
  pause : bool;
  player : nat;                 (* g.player *)
  rand_count : nat;             (* calls of random.randint so far *)
  effects : list Effect
}.

Definition with_heap (v : gmap nat Actor) (w : World) : World :=
  mkWorld v (g_next_id w) (sprites w) (view w) (bounds w) (clayer w) (frame w)
    (post_frame_tasks w) (next_vid w) (quit w) (pause w) (player w)
    (rand_count w) (effects w).
Definition with_next_id (v : nat) (w : World) : World :=
  mkWorld (g_heap w) v (sprites w) (view w) (bounds w) (clayer w) (frame w)
    (post_frame_tasks w) (next_vid w) (quit w) (pause w) (player w)
    (rand_count w) (effects w).
Definition with_sprites (v : list nat) (w : World) : World :=
  mkWorld (g_heap w) (g_next_id w) v (view w) (bounds w) (clayer w) (frame w)
    (post_frame_tasks w) (next_vid w) (quit w) (pause w) (player w)
    (rand_count w) (effects w).
Definition with_view (v : Rect) (w : World) : World :=
  mkWorld (g_heap w) (g_next_id w) (sprites w) v (bounds w) (clayer w) (frame w)
    (post_frame_tasks w) (next_vid w) (quit w) (pause w) (player w)
    (rand_count w) (effects w).
Definition with_clayer (v : list (list Z)) (w : World) : World :=
  mkWorld (g_heap w) (g_next_id w) (sprites w) (view w) (bounds w) v (frame w)
    (post_frame_tasks w) (next_vid w) (quit w) (pause w) (player w)
    (rand_count w) (effects w).
Definition with_frame (v : Z) (w : World) : World :=
  mkWorld (g_heap w) (g_next_id w) (sprites w) (view w) (bounds w) (clayer w) v
    (post_frame_tasks w) (next_vid w) (quit w) (pause w) (player w)
    (rand_count w) (effects w).
Definition with_post_frame_tasks (v : list Task) (w : World) : World :=
  mkWorld (g_heap w) (g_next_id w) (sprites w) (view w) (bounds w) (clayer w)
    (frame w) v (next_vid w) (quit w) (pause w) (player w)
    (rand_count w) (effects w).
Definition with_next_vid (v : option Screen) (w : World) : World :=
  mkWorld (g_heap w) (g_next_id w) (sprites w) (view w) (bounds w) (clayer w)
    (frame w) (post_frame_tasks w) v (quit w) (pause w) (player w)
    (rand_count w) (effects w).
Definition with_quit (v : bool) (w : World) : World :=
  mkWorld (g_heap w) (g_next_id w) (sprites w) (view w) (bounds w) (clayer w)
    (frame w) (post_frame_tasks w) (next_vid w) v (pause w) (player w)
    (rand_count w) (effects w).
Definition with_pause (v : bool) (w : World) : World :=
  mkWorld (g_heap w) (g_next_id w) (sprites w) (view w) (bounds w) (clayer w)
    (frame w) (post_frame_tasks w) (next_vid w) (quit w) v (player w)
    (rand_count w) (effects w).
Definition with_player (v : nat) (w : World) : World :=
  mkWorld (g_heap w) (g_next_id w) (sprites w) (view w) (bounds w) (clayer w)
    (frame w) (post_frame_tasks w) (next_vid w) (quit w) (pause w) v
    (rand_count w) (effects w).
Definition with_rand_count (v : nat) (w : World) : World :=
  mkWorld (g_heap w) (g_next_id w) (sprites w) (view w) (bounds w) (clayer w)
    (frame w) (post_frame_tasks w) (next_vid w) (quit w) (pause w) (player w)
    v (effects w).
Definition with_effects (v : list Effect) (w : World) : World :=
  mkWorld (g_heap w) (g_next_id w) (sprites w) (view w) (bounds w) (clayer w)
    (frame w) (post_frame_tasks w) (next_vid w) (quit w) (pause w) (player w)
    (rand_count w) v.

(** Reading and updating an object through its identity. An identity held
    by the program always refers to an allocated object; the default of
    the total lookup is never observed on such worlds. *)
Definition obj (w : World) (i : nat) : Actor := g_heap w !!! i.

Definition upd (i : nat) (f : Actor -> Actor) (w : World) : World :=
  with_heap (alter f i (g_heap w)) w.

(** [play_wav(name, *args)] *)
Definition play_wav (name : string) (args : list Z) (w : World) : World :=
  with_effects (PlayWav name args :: effects w) w.

(** [LevelTilevid.game_over] and [LevelTilevid.winner] *)
Definition game_over (w : World) : World := with_next_vid (Some GameOverTilevid) w.
Definition winner (w : World) : World := with_next_vid (Some WinnerTilevid) w.

(** [LevelTilevid.image_data]: the collision shape loaded for each image
    name. *)
Definition helicopter_bounds : Rect := mkRect 6 1 26 31.

Definition image_data : list (string * Rect) :=
  [ ("shot", mkRect 1 2 6 4);
    ("gun_turret", mkRect 0 0 32 32);
    ("gun_bullet", mkRect 0 0 16 8);
    ("missle_turret", mkRect 0 0 32 35);
    ("missle", mkRect 0 0 9 29);
    ("enemy_shot", mkRect 0 0 5 5);
    ("player_helicopter-0", helicopter_bounds);
    ("enemy_helicopter-0", helicopter_bounds);
    ("turret_destroyed-0", mkRect 0 0 32 32);
    ("player_helicopter-1", helicopter_bounds);
    ("enemy_helicopter-1", helicopter_bounds);
    ("turret_destroyed-1", mkRect 0 0 32 32);
    ("explosion-0", mkRect 0 0 32 32);
    ("explosion-1", mkRect 0 0 32 32);
    ("explosion-2", mkRect 0 0 32 32) ].

Fixpoint assoc (name : string) (l : list (string * Rect)) : option Rect :=
  match l with
  | [] => None
  | (k, v) :: l' => if decide (k = name) then Some v else assoc name l'
  end.

(** The shape of [g.images[name]]; every name the game uses is loaded. *)
Definition image_shape (name : string) : Rect :=
  default (mkRect 0 0 0 0) (assoc name image_data).

(** ** SuperSprite *)

(** [list.remove]: drops the first occurrence; [None] is the ValueError
    raised when there is none. *)
Fixpoint list_remove (x : nat) (l : list nat) : option (list nat) :=
  match l with
  | [] => None
  | y :: l' => if decide (y = x) then Some l' else cons y <$> list_remove x l'
  end.

(** [remove_sprite_safely]: try the removal, pass on ValueError. *)
Definition remove_sprite_safely (self : nat) (w : World) : World :=
  match list_remove self (sprites w) with
  | Some l => with_sprites l w
  | None => w
  end.

(** [uptime]: how many frames the sprite has been alive for. *)
Definition uptime (self : nat) (w : World) : Z :=
  frame w - first_frame (obj w self).

(** The closure of [create_alternating_animator]; [fmt] is the
    [image_name_format] up to its final [%s]. *)
Definition alternating (num_images frames_per_image : Z) (fmt : string)
    (self : nat) (w : World) : World :=
  let total_frames := num_images * frames_per_image in
  let n := (uptime self w `mod` total_frames) `div` frames_per_image in
  upd self (with_image (Img (fmt +:+ pretty n))) w.

(** [default_animator]: [Helicopter.__init__] replaces it by an alternating
    animator over the two blade images, [GunTurret] tracks the player and
    [Artillery] leaves the image alone. *)
Definition default_animator (env : Env) (self : nat) (w : World) : World :=
  let a := obj w self in
  match kind a with
  | Player | EnemyHeli _ => alternating 2 2 (blade_image_format (kind a)) self w
  | GunTurret | MissleTurret =>
      match rad a with
      | Some r =>
          let img := Rotated (orig_image a) (rad_to_ccw r) in
          let sz := rotated_size env (orig_image a) (rad_to_ccw r) in
          upd self (fun a => with_rect (set_center (orig_center a)
                                          (mkRect 0 0 sz.1 sz.2))
                               (with_image img a)) w
      | None => w               (* loop_func has always set self.rad *)
      end
  | Artillery _ _ _ _ _ _ => w
  end.

(** [after_destroyed_func]: turrets freeze on the wreck images, every
    other sprite is removed. *)
Definition after_destroyed_func (self : nat) (w : World) : World :=
  match kind (obj w self) with
  | GunTurret | MissleTurret =>
      upd self (with_animator_func (AlternatingAnimator 2 4 "turret_destroyed-")) w
  | _ => remove_sprite_safely self w
  end.

(** [create_damaged_animator], up to the closure it returns. *)
Definition create_damaged_animator (self : nat) (w : World) : Animator * World :=
  let a := obj w self in
  let w1 := if decide (default_group_name (kind a) = "player")
            then play_wav "damaged.wav" [] w else w in
  (DamagedAnimator (invincible_time (kind a)),
   with_post_frame_tasks (post_frame_tasks w1 ++ [SetInvincible self]) w1).

(** [create_destroyed_animator], up to the closure it returns. *)
Definition create_destroyed_animator (self : nat) (w : World) : Animator * World :=
  let w1 := play_wav "explosion.wav" [] w in
  (DestroyedAnimator 0,
   with_post_frame_tasks (post_frame_tasks w1 ++ [SetInvincible self]) w1).

(** [damaged_func] *)
Definition damaged_func (self : nat) (w : World) : World :=
  let '(f, w1) := create_damaged_animator self w in
  upd self (with_animator_func f) w1.

(** [SuperSprite.destroyed_func] *)
Definition SuperSprite_destroyed_func (self : nat) (w : World) : World :=
  let '(f, w1) := create_destroyed_animator self w in
  upd self (with_animator_func f) w1.

(** [destroyed_func] with its overrides: the player ends the game, enemies
    add to the player's score, and a bullet goes straight to
    [after_destroyed_func]. *)
Definition destroyed_func (self : nat) (w : World) : World :=
  match kind (obj w self) with
  | Player => game_over (SuperSprite_destroyed_func self w)
  | EnemyHeli _ =>
      let w1 := SuperSprite_destroyed_func self w in
      upd (player w1) (fun p => with_score (score p + 500) p) w1
  | GunTurret | MissleTurret =>
      let w1 := SuperSprite_destroyed_func self w in
      upd (player w1) (fun p => with_score (score p + 1500) p) w1
  | Artillery _ _ _ _ _ _ => after_destroyed_func self w
  end.

(** [hit_func]: we just got hit by [hitee]. *)
Definition hit_func (self hitee : nat) (w : World) : World :=
  if invincible (obj w self) || invincible (obj w hitee) then w
  else
    let w1 := upd self (fun a => with_hitcount
                          (hitcount a - collision_damage (kind (obj w hitee))) a) w in
    if hitcount (obj w1 self) >? 0 then damaged_func self w1
    else destroyed_func self w1.

(** The animator closures, one call. *)
Definition damaged_animator (env : Env) (count : Z) (self : nat) (w : World) : World :=
  let count := count - 1 in
  let w1 := upd self (with_animator_func (DamagedAnimator count)) w in
  let w2 := if decide (count `mod` 3 = 0)
            then upd self (with_image BlankImage) w1
            else default_animator env self w1 in
  if count <=? 0
  then upd self (fun a => with_invincible false
                            (with_animator_func DefaultAnimator a)) w2
  else w2.

Definition destroyed_animator (count : Z) (self : nat) (w : World) : World :=
  let count := count + 1 in
  let w1 := upd self (with_animator_func (DestroyedAnimator count)) w in
  let n := count `div` 3 in
  if n <=? 2
  then upd self (with_image (Img ("explosion-" +:+ pretty n))) w1
  else after_destroyed_func self w1.

(** [self.animator_func()] *)
Definition run_animator (env : Env) (self : nat) (w : World) : World :=
  match animator_func (obj w self) with
  | DefaultAnimator => default_animator env self w
  | DamagedAnimator count => damaged_animator env count self w
  | DestroyedAnimator count => destroyed_animator count self w
  | AlternatingAnimator n f fmt => alternating n f fmt self w
  end.

(** [constrain_sprites]: wipe sprites who go off the board, but not the
    enemies who just got spawned one row above the view. *)
Definition off_board (r v : Rect) : bool :=
  (left r <? left v) || (right r >? right v) || (top r >? bottom v) ||
  (bottom r <? top v - TILE_HEIGHT).

Definition constrain_sprites (self : nat) (w : World) : World :=
  if off_board (rect (obj w self)) (view w)
  then remove_sprite_safely self w
  else w.

(** ** Construction *)

(** The tiles handed to constructors by [run_codes] and to [tile_block] by
    the tile hit loop. [config] holds the four directional flags. *)
Record Config := mkConfig { c_top : Z; c_left : Z; c_right : Z; c_bottom : Z }.

Record Tile := mkTile {
  tx : Z;
  ty : Z;
  t_rect : Rect;
  t__rect : Rect;
  config : Config
}.

(** Python's indexing of a list of length [len]: negative indices count
    from the end; [None] is the IndexError. *)
Definition py_index (len : nat) (i : Z) : option nat :=
  if (0 <=? i) && (i <? Z.of_nat len) then Some (Z.to_nat i)
  else if (i <? 0) && (- Z.of_nat len <=? i) then Some (Z.to_nat (Z.of_nat len + i))
  else None.

Definition py_get {A} (l : list A) (i : Z) : option A :=
  py_index (length l) i ≫= fun n => l !! n.

(** [g.clayer[ty][tx] = 0] *)
Definition clear_code (ty tx : Z) (cl : list (list Z)) : list (list Z) :=
  match py_index (length cl) ty with
  | Some r =>
      match cl !! r with
      | Some row =>
          match py_index (length row) tx with
          | Some c => <[r := <[c := 0]> row]> cl
          | None => cl
          end
      | None => cl
      end
  | None => cl
  end.

(** Modelled from the spec: pgu's [string2groups] is not part of the
    sources. The specification's data model gives every actor a faction
    tag and a set of attackable factions; a group name stands for the set
    holding that one tag. *)
Definition string2groups (name : string) : gset string := {[ name ]}.

(** [SuperSprite.__init__] for a sprite of class [k], after pgu's
    [Sprite.__init__] (the rectangle starts at [pos], or at the tile's
    corner, with the size of the image's shape). Every caller passes a
    tile or a position. Returns [self]. *)
Definition SuperSprite_init (k : Kind) (t : option Tile) (pos : option (Z * Z))
    (w : World) : nat * World :=
  let self := g_next_id w in
  let arg := match pos with
             | Some p => p
             | None => match t with
                       | Some t => (rx (t_rect t), ry (t_rect t))
                       | None => (0, 0)
                       end
             end in
  let name := default_image_name k in
  let r := mkRect arg.1 arg.2 (rw (image_shape name)) (rh (image_shape name)) in
  let a := mkActor k r r r (Img name)
             (string2groups (default_group_name k))
             (string2groups (default_agroup_name k))
             (default_hitcount k) false (frame w) DefaultAnimator 0 false None
             BlankImage (0, 0) in
  let w1 := match t with
            | Some t => with_clayer (clear_code (ty t) (tx t) (clayer w)) w
            | None => w
            end in
  (self,
   with_sprites (sprites w1 ++ [self])
     (with_next_id (S self) (with_heap (<[self := a]> (g_heap w1)) w1))).

Definition with_orig (img : Image) (c : Z * Z) (a : Actor) : Actor :=
  mkActor (kind a) (rect a) (_rect a) (origin a) (image a) (groups a) (agroups a)
    (hitcount a) (invincible a) (first_frame a) (animator_func a) (score a)
    (red_alert a) (rad a) img c.

(** [Player.__init__] *)
Definition Player_init (t : Tile) (w : World) : World :=
  let '(self, w1) := SuperSprite_init Player (Some t) None w in
  upd self (with_score 0) (with_player self w1).

(** [EnemyHeli.__init__] *)
Definition EnemyHeli_init (move : Move) (t : Tile) (w : World) : World :=
  (SuperSprite_init (EnemyHeli move) (Some t) None w).2.

(** [GunTurret.__init__], inherited by [MissleTurret]: save the original
    image and centre. *)
Definition GunTurret_init (k : Kind) (t : Tile) (w : World) : World :=
  let '(self, w1) := SuperSprite_init k (Some t) None w in
  upd self (fun a => with_orig (image a) (center (rect a)) a) w1.

(** [Artillery.__init__]: the bullet takes the groups of its shooter, is
    created at [pos] and then rotated around its centre. *)
Definition Artillery_init (env : Env) (shooter : nat) (pos : Z * Z)
    (angle : Angle) (speed : Z) (image_name : string) (damage : Z)
    (w : World) : World :=
  let s := obj w shooter in
  let k := Artillery image_name (default_group_name (kind s)) (default_agroup_name (kind s))
             damage angle speed in
  let '(self, w1) := SuperSprite_init k None (Some pos) w in
  upd self (fun a =>
              let img := Rotated (image a) (rad_to_ccw angle) in
              let sz := rotated_size env (image a) (rad_to_ccw angle) in
              with_rect (set_center (center (rect a)) (mkRect 0 0 sz.1 sz.2))
                (with_image img a)) w1.

(** [LevelTilevid.codes_data] *)
Definition codes_data (code : Z) : option (Tile -> World -> World) :=
  match code with
  | 1 => Some Player_init
  | 2 => Some (EnemyHeli_init move_line)
  | 3 => Some (EnemyHeli_init move_sine)
  | 4 => Some (EnemyHeli_init move_circle)
  | 5 => Some (GunTurret_init GunTurret)
  | 6 => Some (GunTurret_init MissleTurret)
  | _ => None
  end.

(** ** Per-frame behaviour *)

(** [pygame.key.get_pressed()], the keys the player reads. *)
Record Keys := mkKeys {
  K_UP : bool; K_DOWN : bool; K_LEFT : bool; K_RIGHT : bool; K_SPACE : bool
}.

(** [Player.handle_done]: the [for ... else] over [g.sprites]; the [else]
    branch runs when the loop was not left by [break]. *)
Fixpoint handle_done_loop (l : list nat) (w : World) : World :=
  match l with
  | [] => winner w
  | s :: l' =>
      if bool_decide (default_group_name (kind (obj w s)) = "enemy")
         && negb (invincible (obj w s))
      then w
      else handle_done_loop l' w
  end.

Definition handle_done (w : World) : World := handle_done_loop (sprites w) w.

(** [Player.loop_func] *)
Definition Player_loop_func (env : Env) (keys : Keys) (self : nat) (w : World) : World :=
  let w1 :=
    if ry (view w) >=? TILE_HEIGHT
    then upd self (fun a => with_rect (set_y (ry (rect a) - SPEED) (rect a)) a) w
    else
      let w' := if red_alert (obj w self) then w
                else upd self (with_red_alert true)
                       (play_wav "red_alert.wav" [-1] w) in
      handle_done w' in
  let dy := (if K_UP keys then -1 else 0) + (if K_DOWN keys then 1 else 0) in
  let dx := (if K_LEFT keys then -1 else 0) + (if K_RIGHT keys then 1 else 0) in
  let w2 := upd self (fun a =>
              let r := rect a in
              let r := set_x (rx r + dx * 5) r in
              let r := set_y (ry r + dy * 5) r in
              with_rect (clamp_ip (view w1) r) a) w1 in
  if K_SPACE keys && bool_decide (frame w2 `mod` 4 = 0)
  then
    let r := rect (obj w2 self) in
    let pos := (centerx r - 6, top r - 2) in
    play_wav "shooting.wav" [0; 20]
      (Artillery_init env self pos HalfPi 60 "shot" 1 w2)
  else w2.

(** The enemy movement handlers. *)
Definition run_move (env : Env) (m : Move) (self : nat) (w : World) : World :=
  let up := uptime self w in
  upd self (fun a =>
    let r := rect a in
    match m with
    | move_line => with_rect (set_y (ry r + SPEED) r) a
    | move_sine =>
        let r := set_y (ry r + SPEED) r in
        with_rect (set_x (sine_x env (rx (origin a)) up) r) a
    | move_circle =>
        let r := set_x (circle_x env (rx (origin a)) up) r in
        with_rect (set_y (circle_y env (ry (origin a)) up) r) a
    end) w.

(** [EnemyHeli.loop_func]: [random.randint] is called before the
    hit-points are looked at. *)
Definition EnemyHeli_loop_func (env : Env) (move : Move) (self : nat) (w : World) : World :=
  let w1 := run_move env move self w in
  let draw := randint env (rand_count w1) in
  let w2 := with_rand_count (S (rand_count w1)) w1 in
  if bool_decide (draw = 0) && (hitcount (obj w2 self) >? 0)
  then
    let r := rect (obj w2 self) in
    Artillery_init env self (centerx r - 6, bottom r + 2)
      ThreeHalfPi 60 "enemy_shot" 1 w2
  else w2.

(** [GunTurret.loop_func], inherited by [MissleTurret]. *)
Definition GunTurret_loop_func (env : Env) (self : nat) (w : World) : World :=
  let s_rect := rect (obj w self) in
  let p_rect := rect (obj w (player w)) in
  let dx := rx p_rect - rx s_rect in
  let dy := ry p_rect - ry s_rect in
  let r := Atan2 (- dy) dx in
  let w1 := upd self (with_rad (Some r)) w in
  let pos := (centerx s_rect, centery s_rect) in
  let a := obj w1 self in
  if bool_decide (uptime self w1 `mod` shot_freq (kind a) = 0) && (hitcount a >? 0)
  then Artillery_init env self pos r (shot_speed (kind a)) (shot_image (kind a))
         (collision_damage (kind a)) w1
  else w1.

(** [Artillery.loop_func] *)
Definition Artillery_loop_func (env : Env) (angle : Angle) (speed : Z)
    (self : nat) (w : World) : World :=
  upd self (fun a =>
    let r := rect a in
    let r := set_x (shot_x env angle speed (rx r)) r in
    with_rect (set_y (shot_y env angle speed (ry r)) r) a) w.

(** [self.loop_func()] *)
Definition loop_func (env : Env) (keys : Keys) (self : nat) (w : World) : World :=
  match kind (obj w self) with
  | Player => Player_loop_func env keys self w
  | EnemyHeli move => EnemyHeli_loop_func env move self w
  | GunTurret | MissleTurret => GunTurret_loop_func env self w
  | Artillery _ _ _ _ angle speed => Artillery_loop_func env angle speed self w
  end.

(** [SuperSprite.loop]: call loop_func and animator_func, then wipe the
    sprite when it left the board. *)
Definition sprite_loop (env : Env) (keys : Keys) (self : nat) (w : World) : World :=
  constrain_sprites self (run_animator env self (loop_func env keys self w)).

(** [tile_block] acts on the sprite [a] alone. *)
Definition tile_block (t : Tile) (a : Actor) : Actor :=
  let c := config t in
  let a :=
    if bool_decide (c_top c = 1) && (bottom (_rect a) <=? top (t__rect t))
       && (bottom (rect a) >? top (t_rect t))
    then with_rect (set_bottom (top (t_rect t)) (rect a)) a else a in
  let a :=
    if bool_decide (c_left c = 1) && (right (_rect a) <=? left (t__rect t))
       && (right (rect a) >? left (t_rect t))
    then with_rect (set_right (left (t_rect t)) (rect a)) a else a in
  let a :=
    if bool_decide (c_right c = 1) && (left (_rect a) >=? right (t__rect t))
       && (left (rect a) <? right (t_rect t))
    then with_rect (set_left (right (t_rect t)) (rect a)) a else a in
  if bool_decide (c_bottom c = 1) && (top (_rect a) >=? bottom (t__rect t))
     && (top (rect a) <? bottom (t_rect t))
  then with_rect (set_top (bottom (t_rect t)) (rect a)) a else a.

(** ** The level: one frame and the main loop *)

(** The tile [run_codes] fills in for the cell at column [x] and row [y]. *)
Definition code_tile (x y : Z) : Tile :=
  let r := mkRect (x * TILE_WIDTH) (y * TILE_HEIGHT) TILE_WIDTH TILE_HEIGHT in
  mkTile x y r r (mkConfig 0 0 0 0).

(** One cell: when its code is in [codes_data], the constructor of the
    class gets the tile. *)
Definition run_code (y x : Z) (w : World) : World :=
  match py_get (clayer w) y ≫= fun row => py_get row x with
  | Some n =>
      match codes_data n with
      | Some fnc => fnc (code_tile x y) w
      | None => w
      end
  | None => w
  end.

(** Modelled from the spec: pgu's [run_codes(cdata, (x1, y1, w, h))] is not
    part of the sources. Every cell of the code layer within the rectangle
    whose code is in [codes_data] is converted into one spawn: the cell
    is handed, as a tile, to the constructor of its class, which clears
    it. The rows are [range(y1, min(len(clayer), y1 + h))], the columns
    likewise. *)
Definition run_codes (x1 y1 wd ht : Z) (w : World) : World :=
  let rows := Z.of_nat (length (clayer w)) in
  foldl (fun w y =>
           match py_get (clayer w) y with
           | Some row =>
               let cols := Z.of_nat (length row) in
               foldl (fun w x => run_code y x w) w
                     (seqZ x1 (Z.min cols (x1 + wd) - x1))
           | None => w
           end)
        w (seqZ y1 (Z.min rows (y1 + ht) - y1)).

(** [LevelTilevid.pre_loop]: move the view, run the codes of the row above
    it. *)
Definition pre_loop (w : World) : World :=
  let w1 := with_view (set_y (ry (view w) - SPEED) (view w)) w in
  run_codes 0 (top (view w1) `div` TILE_HEIGHT - 1) 17 1 w1.

(** Modelled from the spec: pgu's [loop_sprites] is not part of the
    sources. Every actor of a snapshot of the collection taken at the start
    gets its [loop] called: behaviour, animator, bounds check. *)
Definition loop_sprites (env : Env) (keys : Keys) (w : World) : World :=
  foldl (fun w s => sprite_loop env keys s w) w (sprites w).

(** Modelled from the spec: pgu's [loop_spritehits] is not part of the
    sources. For every pair of actors of a snapshot of the collection, the
    first one's [hit] fires with the other as aggressor when the other's
    group is in its attackable-group set and the rectangles intersect;
    each side tests the other independently. *)
Definition hits (w : World) (s b : nat) : bool :=
  bool_decide (s ≠ b)
  && bool_decide (agroups (obj w s) ∩ groups (obj w b) ≠ ∅)
  && colliderect (rect (obj w s)) (rect (obj w b)).

(** [SuperSprite.hit] is [hit_func]. *)
Definition sprite_hit (w : World) (sb : nat * nat) : World :=
  if hits w sb.1 sb.2 then hit_func sb.1 sb.2 w else w.

Definition hit_pass (pairs : list (nat * nat)) (w : World) : World :=
  foldl sprite_hit w pairs.

Definition loop_spritehits (w : World) : World :=
  let as_ := sprites w in
  hit_pass (s ← as_; b ← as_; [(s, b)]) w.

(** [LevelTilevid.tile_data] is empty: no tile has a [hit] handler, so
    pgu's [loop_tilehits] calls nothing. *)
Definition loop_tilehits (w : World) : World := w.

(** Modelled from the spec: pgu's [loop] is not part of the sources. The
    actors are updated, then collisions are resolved, and every live actor
    keeps its rectangle as the previous-tick rectangle [_rect]. *)
Definition loop (env : Env) (keys : Keys) (w : World) : World :=
  let w1 := loop_spritehits (loop_tilehits (loop_sprites env keys w)) in
  foldl (fun w s => upd s (fun a => with__rect (rect a) a) w) w1 (sprites w1).

(** pgu's [paint] is the rendering collaborator. What it does to the state
    of the game is to keep the view at the size of the screen and inside
    [g.bounds], the rectangle [SuperTilevid.__init__] computes for it. *)
Definition paint (w : World) : World :=
  let v := mkRect (rx (view w)) (ry (view w)) SCREEN_WIDTH SCREEN_HEIGHT in
  with_effects (Paint :: effects w) (with_view (clamp_ip (bounds w) v) w).

(** [LevelTilevid.post_paint] draws the score and the hits remaining. *)
Definition post_paint (w : World) : World :=
  let p := obj w (player w) in
  with_effects (DrawScoreboard (score p) (hitcount p) :: effects w) w.

Definition run_task (w : World) (t : Task) : World :=
  match t with
  | SetInvincible self => upd self (with_invincible true) w
  end.

Definition run_post_frame_tasks (w : World) : World :=
  foldl run_task w (post_frame_tasks w).

Inductive Key := K_ESCAPE | K_F9 | K_RETURN | K_other.

Inductive Event := QUIT | KEYDOWN (key : Key) | OtherEvent.

(** [LevelTilevid.handle_event] *)
Definition handle_event (w : World) (e : Event) : World :=
  match e with
  | KEYDOWN K_RETURN => with_pause (negb (pause w)) w
  | _ => w
  end.

(** The event loop at the top of every frame. *)
Definition dispatch_event (w : World) (e : Event) : World :=
  match e with
  | QUIT => with_quit true w
  | KEYDOWN K_ESCAPE => with_quit true w
  | KEYDOWN K_F9 => with_effects (ToggleFullscreen :: effects w) w
  | _ => handle_event w e
  end.

Record Input := mkInput { events : list Event; keys : Keys }.

(** What runs when the game is not paused. *)
Definition unpaused_frame (env : Env) (inp : Input) (w : World) : World :=
  let w := loop env (keys inp) (pre_loop w) in
  let w := with_effects (ScreenFill :: effects w) w in
  let w := post_paint (paint w) in
  let w := run_post_frame_tasks w in
  let w := with_effects (DisplayFlip :: effects w) w in
  with_frame (frame w + 1) w.

(** The body of the [while] loop of [SuperTilevid.run], up to the test of
    [next_vid]. *)
Definition frame_step (env : Env) (inp : Input) (w : World) : World :=
  let w := with_post_frame_tasks [] w in
  let w := foldl dispatch_event w (events inp) in
  let w := if pause w then w else unpaused_frame env inp w in
  with_effects (TimerTick :: effects w) w.

(** [SuperTilevid.run] on the inputs of the coming frames: it returns
    [next_vid] at the end of the first frame that finds it set, [None] once
    [quit] is set, and asks for more input otherwise. *)
Inductive RunResult :=
| Returned (v : option Screen) (w : World)
| NeedsInput (w : World).

Fixpoint run_loop (env : Env) (inputs : list Input) (w : World) : RunResult :=
  if quit w then Returned None w
  else match inputs with
       | [] => NeedsInput w
       | inp :: rest =>
           let w' := frame_step env inp w in
           match next_vid w' with
           | Some v => Returned (Some v) w'
           | None => run_loop env rest w'
           end
       end.

Definition run (env : Env) (inputs : list Input) (w : World) : RunResult :=
  run_loop env inputs (with_pause false (with_quit false w)).

(** ** Stages of a frame and predicates on worlds *)

(** The world once the events of the frame have been dispatched. *)
Definition events_done (inp : Input) (w : World) : World :=
  foldl dispatch_event (with_post_frame_tasks [] w) (events inp).

(** The world of an unpaused frame when the collision pass starts. *)
Definition sprites_done (env : Env) (inp : Input) (w : World) : World :=
  loop_tilehits (loop_sprites env (keys inp) (pre_loop (events_done inp w))).

(** The object behind an identity exists. *)
Definition allocated (w : World) (i : nat) : Prop := is_Some (g_heap w !! i).

(** What [handle_done] looks for: every enemy left is invincible. *)
Definition level_done (w : World) : Prop :=
  forall s, s ∈ sprites w ->
    default_group_name (kind (obj w s)) = "enemy" -> invincible (obj w s) = true.


(** The groups of a sprite are those [SuperSprite.__init__] computed from
    its group names. *)
Definition synced (a : Actor) : Prop :=
  groups a = string2groups (default_group_name (kind a)) /\
  agroups a = string2groups (default_agroup_name (kind a)).

(** A sprite is attackable by another faction than its own, as every
    class of the game is. *)
Definition opposed (k : Kind) : Prop :=
  default_agroup_name k <> default_group_name k.

Definition is_turret (k : Kind) : bool :=
  match k with GunTurret | MissleTurret => true | _ => false end.

(** ** Scenarios

    Small worlds on which the properties below are exercised. *)

(** An environment that is exact where no trigonometry is involved: a
    bullet launched at 0.5 pi or 1.5 pi keeps its column and moves by its
    speed against or with the scroll. Rotated pictures are taken to be 8 by
    8 and the sine and circle trajectories to stay at their origin; no
    scenario below evaluates them. *)
Definition sample_env (draws : nat -> Z) : Env := {|
  rotated_size := fun _ _ => (8, 8);
  shot_x := fun _ _ x => x;
  shot_y := fun angle speed y =>
              match angle with
              | HalfPi => y - speed `div` 10 - SPEED
              | ThreeHalfPi => y + speed `div` 10 - SPEED
              | Atan2 _ _ => y - SPEED
              end;
  sine_x := fun ox _ => ox;
  circle_x := fun ox _ => ox;
  circle_y := fun oy _ => oy;
  randint := draws
|}.

(** An environment whose random numbers never make a helicopter fire. *)
Definition quiet_env : Env := sample_env (fun _ => 1).

Definition no_keys : Keys := mkKeys false false false false false.
Definition idle : Input := mkInput [] no_keys.

(** A level without sprites, the view somewhere in the middle of a map of
    17 by 200 tiles without codes. *)
Definition empty_level : World :=
  mkWorld ∅ 0 [] (mkRect 16 160 SCREEN_WIDTH SCREEN_HEIGHT)
    (mkRect TILE_WIDTH TILE_HEIGHT (15 * TILE_WIDTH) (198 * TILE_HEIGHT))
    [] 0 [] None false false 0 0 [].

(** The player (object 0) and an enemy helicopter (object 1) that has
    drifted onto it. *)
Definition duel : World :=
  EnemyHeli_init move_line (code_tile 5 12)
    (Player_init (code_tile 5 12) empty_level).

(** The same with a bullet of the player (object 2) in the air: the
    helicopter overlaps both the player and the bullet. *)
Definition duel_with_shot : World :=
  Artillery_init quiet_env 0 (87, 190) HalfPi 60 "shot" 1 duel.

(** The duel with the player down to its last hit-point. *)
Definition last_stand : World := upd 0 (with_hitcount 1) duel.

(** The top of the level: the view has reached the first row and all that
    is left next to the player (object 0) is the wreck of a gun turret
    (object 1). *)
Definition summit : World :=
  upd 1 (fun a => with_invincible true
                    (with_hitcount 0
                       (with_animator_func
                          (AlternatingAnimator 2 4 "turret_destroyed-") a)))
    (GunTurret_init GunTurret (code_tile 9 3)
       (Player_init (code_tile 5 5)
          (with_view (mkRect 16 16 SCREEN_WIDTH SCREEN_HEIGHT) empty_level))).


(** A solid tile and a sprite that came down onto it from above. *)
Definition solid_tile : Tile :=
  mkTile 5 12 (mkRect 80 192 16 16) (mkRect 80 192 16 16) (mkConfig 1 1 1 1).

Definition falling_sprite : Actor :=
  with_rect (mkRect 80 170 26 31)
    (with__rect (mkRect 80 160 26 31) (obj duel 0)).

(** * Properties *)

(** ** The heap *)

Lemma obj_upd_eq (i : nat) (f : Actor -> Actor) (w : World) :
  allocated w i -> obj (upd i f w) i = f (obj w i).
Proof.
  intros [a Ha]. unfold obj, upd. simpl.
  rewrite !lookup_total_alt, lookup_alter_eq, Ha. reflexivity.
Qed.

Lemma obj_upd_ne (i j : nat) (f : Actor -> Actor) (w : World) :
  i ≠ j -> obj (upd i f w) j = obj w j.
Proof.
  intros Hne. unfold obj, upd. simpl.
  rewrite !lookup_total_alt, lookup_alter_ne by done. reflexivity.
Qed.

(** An update that keeps a field keeps it on every object. *)
Lemma obj_upd_field {A} (p : Actor -> A) (i j : nat) (f : Actor -> Actor) (w : World) :
  (forall a, p (f a) = p a) -> p (obj (upd i f w) j) = p (obj w j).
Proof.
  intros Hp. unfold obj, upd. simpl. rewrite !lookup_total_alt.
  destruct (decide (i = j)) as [->|Hne].
  - rewrite lookup_alter_eq. destruct (g_heap w !! j); simpl; [apply Hp | done].
  - rewrite lookup_alter_ne by done. reflexivity.
Qed.

Lemma allocated_upd (i j : nat) (f : Actor -> Actor) (w : World) :
  allocated (upd i f w) j <-> allocated w j.
Proof.
  unfold allocated, upd. simpl. destruct (decide (i = j)) as [->|Hne].
  - rewrite lookup_alter_eq. rewrite fmap_is_Some. reflexivity.
  - rewrite lookup_alter_ne by done. reflexivity.
Qed.

(** ** Removal from the collection *)

Lemma list_remove_None (x : nat) (l : list nat) :
  list_remove x l = None <-> x ∉ l.
Proof.
  induction l as [|y l IH]; simpl.
  - split; [intros _; apply not_elem_of_nil | done].
  - destruct (decide (y = x)) as [->|Hne].
    + split; [done | intros H; exfalso; apply H; left].
    + rewrite fmap_None, IH, not_elem_of_cons.
      split; [intros ?; split; [congruence | done] | intros [_ ?]; done].
Qed.

Lemma list_remove_Some (x : nat) (l l' : list nat) :
  list_remove x l = Some l' ->
  exists l1 l2, l = l1 ++ x :: l2 /\ l' = l1 ++ l2 /\ x ∉ l1.
Proof.
  revert l'. induction l as [|y l IH]; simpl; intros l' H; [done|].
  destruct (decide (y = x)) as [->|Hne].
  - injection H as <-. exists [], l. split_and!; [done | done | apply not_elem_of_nil].
  - apply fmap_Some in H as (l0 & H0 & ->).
    destruct (IH _ H0) as (l1 & l2 & -> & -> & Hn).
    exists (y :: l1), l2. split_and!; [done | done |].
    apply not_elem_of_cons. done.
Qed.

(** In a collection without duplicates one removal is enough. *)
Lemma list_remove_NoDup (x : nat) (l l' : list nat) :
  NoDup l -> list_remove x l = Some l' -> x ∉ l'.
Proof.
  intros Hnd H. destruct (list_remove_Some _ _ _ H) as (l1 & l2 & -> & -> & Hn).
  apply NoDup_app in Hnd as (_ & _ & Hnd). apply NoDup_cons in Hnd as [Hx _].
  rewrite elem_of_app. tauto.
Qed.

Lemma remove_absent (self : nat) (w : World) :
  self ∉ sprites w -> remove_sprite_safely self w = w.
Proof.
  intros Hn. apply list_remove_None in Hn.
  unfold remove_sprite_safely. rewrite Hn. done.
Qed.

(** Removing the same sprite twice from a collection without duplicates:
    the second removal changes nothing. *)
Lemma remove_sprite_safely_twice (self : nat) (w : World) :
  NoDup (sprites w) ->
  remove_sprite_safely self (remove_sprite_safely self w)
  = remove_sprite_safely self w.
Proof.
  intros Hnd. apply remove_absent. unfold remove_sprite_safely.
  destruct (list_remove self (sprites w)) as [l|] eqn:E; simpl.
  - eapply list_remove_NoDup; eauto.
  - apply list_remove_None, E.
Qed.

(** C5. Removing an actor that is no longer in the world's collection is a
    no-op: [list.remove] raises ValueError ([None]), the handler passes,
    and the world, with its collection, is the one before the call. *)
Theorem remove_sprite_safely_absent (self : nat) (w : World) :
  self ∉ sprites w ->
  list_remove self (sprites w) = None /\ remove_sprite_safely self w = w.
Proof.
  intros Hn. split; [by apply list_remove_None | by apply remove_absent].
Qed.

(** ** Damage *)


Lemma obj_remove_sprite_safely (self i : nat) (w : World) :
  obj (remove_sprite_safely self w) i = obj w i.
Proof. unfold remove_sprite_safely. by destruct (list_remove _ _). Qed.

Lemma damaged_func_obj (self : nat) (w : World) :
  allocated w self ->
  obj (damaged_func self w) self
  = with_animator_func (DamagedAnimator (invincible_time (kind (obj w self))))
      (obj w self).
Proof.
  intros Ha. unfold damaged_func, create_damaged_animator.
  rewrite obj_upd_eq.
  - destruct (decide _); reflexivity.
  - destruct (decide _); exact Ha.
Qed.

Lemma SuperSprite_destroyed_func_obj (self : nat) (w : World) :
  allocated w self ->
  obj (SuperSprite_destroyed_func self w) self
  = with_animator_func (DestroyedAnimator 0) (obj w self).
Proof.
  intros Ha. unfold SuperSprite_destroyed_func, create_destroyed_animator.
  rewrite obj_upd_eq; [reflexivity | exact Ha].
Qed.



(** Every sprite but a bullet queues that task when a hit destroys it. *)
Lemma destroyed_func_queues_task (self : nat) (w : World) :
  allocated w self ->
  (forall n g a d r s, kind (obj w self) <> Artillery n g a d r s) ->
  SetInvincible self ∈ post_frame_tasks (destroyed_func self w) /\
  animator_func (obj (destroyed_func self w) self) = DestroyedAnimator 0.
Proof.
  intros Ha Hk. unfold destroyed_func.
  destruct (kind (obj w self)) eqn:K; try (by edestruct Hk);
    unfold game_over; simpl;
    rewrite ?(obj_upd_field animator_func) by done;
    change (obj (with_next_vid ?v ?w) ?i) with (obj w i);
    rewrite SuperSprite_destroyed_func_obj by done; simpl;
    (split; [|done]); apply elem_of_app; right; by apply list_elem_of_singleton.
Qed.

(** C2 (amended). When neither party is invincible, B's hit-points
    decrease by exactly A's collision damage. If the result is positive B
    goes to the Damaged state. Otherwise B's destroyed handler runs: a
    player, helicopter or turret goes to the Destroyed state, whereas a
    bullet keeps its animator and is removed from the collection at
    once. *)
Theorem hit_func_damage (w : World) (self hitee : nat) :
  allocated w self ->
  invincible (obj w self) = false -> invincible (obj w hitee) = false ->
  let w' := hit_func self hitee w in
  let hp := hitcount (obj w self) - collision_damage (kind (obj w hitee)) in
  hitcount (obj w' self) = hp /\
  (hp > 0 ->
   animator_func (obj w' self)
   = DamagedAnimator (invincible_time (kind (obj w self)))) /\
  (hp <= 0 ->
   match kind (obj w self) with
   | Artillery _ _ _ _ _ _ =>
       animator_func (obj w' self) = animator_func (obj w self) /\
       sprites w' = sprites (remove_sprite_safely self w)
   | _ => animator_func (obj w' self) = DestroyedAnimator 0
   end).
Proof.
  intros Ha Hs Hh w' hp. subst w'. unfold hit_func. rewrite Hs, Hh. simpl.
  set (w1 := upd self _ w).
  assert (H1 : obj w1 self = with_hitcount hp (obj w self))
    by (subst w1 hp; rewrite obj_upd_eq by done; reflexivity).
  assert (Ha1 : allocated w1 self) by (by apply allocated_upd).
  rewrite H1. simpl.
  destruct (hp >? 0) eqn:E.
  - rewrite damaged_func_obj, H1 by done. simpl. split_and!; [done | done | lia].
  - unfold destroyed_func. rewrite H1. simpl.
    destruct (kind (obj w self)) eqn:K.
    1-4: unfold game_over;
         change (obj (with_next_vid ?v ?w) ?i) with (obj w i);
         rewrite ?(obj_upd_field hitcount), ?(obj_upd_field animator_func) by done;
         rewrite SuperSprite_destroyed_func_obj, H1 by done; simpl;
         split_and!; [done | lia | done].
    unfold after_destroyed_func. rewrite H1. simpl. rewrite K.
    rewrite obj_remove_sprite_safely, H1. simpl.
    split_and!; [done | lia |]. intros _. split; [done|].
    subst w1. unfold remove_sprite_safely. simpl.
    by destruct (list_remove self (sprites w)).
Qed.

(** ** Tile blocking *)

Ltac bool_facts :=
  repeat match goal with
  | H : _ && _ = true |- _ => apply andb_true_iff in H as [? ?]
  | H : _ && _ = false |- _ => apply andb_false_iff in H as [?|?]
  | H : bool_decide _ = true |- _ => apply bool_decide_eq_true in H
  | H : bool_decide _ = false |- _ => apply bool_decide_eq_false in H
  | H : (_ <=? _) = true |- _ => apply Z.leb_le in H
  | H : (_ <=? _) = false |- _ => apply Z.leb_gt in H
  | H : (_ <? _) = true |- _ => apply Z.ltb_lt in H
  | H : (_ <? _) = false |- _ => apply Z.ltb_ge in H
  | H : (_ >? _) = true |- _ => apply Z.gtb_lt in H
  | H : (_ >? _) = false |- _ => rewrite Z.gtb_ltb in H
  | H : (_ >=? _) = true |- _ => rewrite Z.geb_leb in H
  | H : (_ >=? _) = false |- _ => rewrite Z.geb_leb in H
  end.

(** C7. For a tile with a directional block flag and a sprite whose
    rectangle of the previous frame was strictly on the open side of that
    edge, the rectangle [tile_block] leaves does not extend past the tile
    boundary on that edge: with the top flag and the previous bottom above
    the tile's top, the resulting bottom is at most the tile's top, and
    likewise for left, right and bottom. Rectangles have the non-negative
    sizes pygame surfaces and tiles give them. *)
Theorem tile_block_edges (t : Tile) (a : Actor) :
  0 <= rw (_rect a) -> 0 <= rh (_rect a) ->
  0 <= rw (t__rect t) -> 0 <= rh (t__rect t) ->
  let a' := tile_block t a in
  (c_top (config t) = 1 -> bottom (_rect a) < top (t__rect t) ->
   bottom (rect a') <= top (t_rect t)) /\
  (c_left (config t) = 1 -> right (_rect a) < left (t__rect t) ->
   right (rect a') <= left (t_rect t)) /\
  (c_right (config t) = 1 -> left (_rect a) > right (t__rect t) ->
   left (rect a') >= right (t_rect t)) /\
  (c_bottom (config t) = 1 -> top (_rect a) > bottom (t__rect t) ->
   top (rect a') >= bottom (t_rect t)).
Proof.
  destruct a as [k [x y w h] [x' y' w' h'] ? ? ? ? ? ? ? ? ? ? ? ? ?].
  destruct t as [? ? [tx0 ty0 tw th] [tx' ty' tw' th'] [ct cl cr cb]].
  unfold tile_block, top, bottom, left, right, set_bottom, set_right, set_left,
    set_top, set_x, set_y. simpl.
  intros Hw Hh Htw Hth.
  repeat match goal with
  | |- context [if ?c then _ else _] => destruct c eqn:?; simpl
  end; bool_facts; split_and!; intros; simpl in *; lia.
Qed.

(** ** Construction and per-frame behaviour *)

(** What the constructors leave alone. *)
Lemma SuperSprite_init_frame (k : Kind) (t : option Tile) (pos : option (Z * Z)) (w : World) :
  let r := SuperSprite_init k t pos w in
  r.1 = g_next_id w /\ sprites r.2 = sprites w ++ [g_next_id w] /\
  g_next_id r.2 = S (g_next_id w) /\ view r.2 = view w /\
  next_vid r.2 = next_vid w /\
  forall i, i <> g_next_id w -> obj r.2 i = obj w i.
Proof.
  unfold SuperSprite_init. destruct t; simpl; split_and!; try done;
    intros i Hi; unfold obj; simpl; rewrite !lookup_total_alt, lookup_insert_ne by done; done.
Qed.

Lemma Artillery_init_frame (env : Env) (shooter : nat) (pos : Z * Z)
    (angle : Angle) (speed : Z) (name : string) (damage : Z) (w : World) :
  let w' := Artillery_init env shooter pos angle speed name damage w in
  sprites w' = sprites w ++ [g_next_id w] /\ view w' = view w /\
  next_vid w' = next_vid w /\
  forall i, i <> g_next_id w -> obj w' i = obj w i.
Proof.
  unfold Artillery_init, SuperSprite_init. simpl. split_and!; try done.
  intros i Hi. rewrite obj_upd_ne by done.
  unfold obj; simpl; rewrite !lookup_total_alt, lookup_insert_ne by done; done.
Qed.

Lemma gtb_nonpos (x : Z) : x <= 0 -> (x >? 0) = false.
Proof. intros H. rewrite Z.gtb_ltb. by apply Z.ltb_ge. Qed.

(** C8. An enemy whose hit-points are at most 0 never spawns a projectile:
    whatever the random number drawn by a helicopter and whatever the
    uptime of a turret, its [loop_func] constructs no sprite and the
    collection is the one before the call. *)
Theorem wrecked_enemy_holds_fire (env : Env) (keys : Keys) (self : nat) (w : World) :
  default_group_name (kind (obj w self)) = "enemy" ->
  hitcount (obj w self) <= 0 ->
  let w' := loop_func env keys self w in
  sprites w' = sprites w /\ g_next_id w' = g_next_id w.
Proof.
  intros Hg Hh. unfold loop_func. destruct (kind (obj w self)) eqn:K; simpl.
  - discriminate Hg.
  - unfold EnemyHeli_loop_func.
    change (obj (with_rand_count ?n ?w) ?i) with (obj w i).
    unfold run_move. rewrite (obj_upd_field hitcount) by (intros; by destruct move).
    rewrite gtb_nonpos by done.
    rewrite andb_false_r. done.
  - unfold GunTurret_loop_func. rewrite (obj_upd_field hitcount) by done.
    rewrite gtb_nonpos by done.
    rewrite andb_false_r. done.
  - unfold GunTurret_loop_func. rewrite (obj_upd_field hitcount) by done.
    rewrite gtb_nonpos by done.
    rewrite andb_false_r. done.
  - done.
Qed.

Lemma Artillery_init_sprites (env : Env) (shooter : nat) (pos : Z * Z)
    (angle : Angle) (speed : Z) (name : string) (damage : Z) (w : World) :
  sprites (Artillery_init env shooter pos angle speed name damage w)
  = sprites w ++ [g_next_id w].
Proof. reflexivity. Qed.

(** The guards are what keeps a wreck quiet: a helicopter with hit-points
    left fires when the random number is 0, and a turret with hit-points
    left fires on every multiple of its period. *)
Lemma live_enemy_fires (env : Env) (keys : Keys) (self : nat) (w : World) :
  hitcount (obj w self) > 0 ->
  match kind (obj w self) with
  | EnemyHeli _ => randint env (rand_count w) = 0
  | GunTurret | MissleTurret =>
      uptime self w `mod` shot_freq (kind (obj w self)) = 0
  | _ => False
  end ->
  sprites (loop_func env keys self w) = sprites w ++ [g_next_id w].
Proof.
  intros Hh Hc. unfold loop_func.
  assert (Hpos : (hitcount (obj w self) >? 0) = true) by (apply Z.gtb_lt; lia).
  destruct (kind (obj w self)) eqn:K; try done.
  - unfold EnemyHeli_loop_func.
    change (obj (with_rand_count ?n ?w) ?i) with (obj w i).
    unfold run_move. rewrite (obj_upd_field hitcount) by (intros; by destruct move).
    cbn [rand_count upd with_heap].
    rewrite (bool_decide_eq_true_2 _ Hc), Hpos. cbn [andb].
    by rewrite Artillery_init_sprites.
  - unfold GunTurret_loop_func, uptime in *.
    rewrite (obj_upd_field hitcount), (obj_upd_field kind),
      (obj_upd_field first_frame) by done.
    cbn [frame upd with_heap].
    rewrite K, (bool_decide_eq_true_2 _ Hc), Hpos. cbn [andb].
    by rewrite Artillery_init_sprites.
  - unfold GunTurret_loop_func, uptime in *.
    rewrite (obj_upd_field hitcount), (obj_upd_field kind),
      (obj_upd_field first_frame) by done.
    cbn [frame upd with_heap].
    rewrite K, (bool_decide_eq_true_2 _ Hc), Hpos. cbn [andb].
    by rewrite Artillery_init_sprites.
Qed.

(** The player is created with the 26 by 31 shape of its helicopter. *)
Lemma Player_init_shape (t : Tile) (w : World) :
  let p := obj (Player_init t w) (g_next_id w) in
  kind p = Player /\ rw (rect p) = 26 /\ rh (rect p) = 31 /\
  player (Player_init t w) = g_next_id w.
Proof.
  unfold Player_init, SuperSprite_init. cbn [fst snd].
  rewrite obj_upd_eq.
  - unfold obj. cbn [g_heap with_player with_sprites with_next_id with_heap with_clayer].
    rewrite lookup_total_insert_eq. done.
  - unfold allocated. cbn [g_heap with_player with_sprites with_next_id with_heap with_clayer].
    rewrite lookup_insert_eq. eauto.
Qed.

Lemma clamp_axis_inside (x w ax aw : Z) :
  0 <= w <= aw ->
  ax <= clamp_axis x w ax aw /\ clamp_axis x w ax aw + w <= ax + aw.
Proof.
  intros H. unfold clamp_axis.
  destruct (w >=? aw) eqn:E1.
  - rewrite Z.geb_leb in E1. apply Z.leb_le in E1.
    assert (w = aw) as -> by lia. lia.
  - destruct (x <? ax) eqn:E2; [lia|].
    destruct (x + w >? ax + aw) eqn:E3; [lia|].
    apply Z.ltb_ge in E2. rewrite Z.gtb_ltb in E3. apply Z.ltb_ge in E3. lia.
Qed.

Lemma clamp_ip_inside (v r : Rect) :
  0 <= rw r <= rw v -> 0 <= rh r <= rh v -> inside (clamp_ip v r) v.
Proof.
  intros Hw Hh. unfold inside, clamp_ip, left, right, top, bottom. simpl.
  pose proof (clamp_axis_inside (rx r) (rw r) (rx v) (rw v) Hw).
  pose proof (clamp_axis_inside (ry r) (rh r) (ry v) (rh v) Hh). lia.
Qed.

Lemma inside_on_board (r v : Rect) :
  0 <= rh r -> inside r v -> off_board r v = false.
Proof.
  unfold inside, off_board, left, right, top, bottom, TILE_HEIGHT.
  intros Hh (H1 & H2 & H3 & H4).
  rewrite !orb_false_iff. split_and!.
  - apply Z.ltb_ge; lia.
  - rewrite Z.gtb_ltb. apply Z.ltb_ge; lia.
  - rewrite Z.gtb_ltb. apply Z.ltb_ge; lia.
  - apply Z.ltb_ge; lia.
Qed.

(** The animators of a helicopter or bullet leave rectangles and view
    alone. *)
Lemma alternating_rect (n f : Z) (fmt : string) (self i : nat) (w : World) :
  rect (obj (alternating n f fmt self w) i) = rect (obj w i).
Proof. unfold alternating. by rewrite (obj_upd_field rect). Qed.

Lemma remove_sprite_safely_view (self : nat) (w : World) :
  view (remove_sprite_safely self w) = view w.
Proof. unfold remove_sprite_safely. by destruct (list_remove _ _). Qed.

Lemma default_animator_rect (env : Env) (self : nat) (w : World) :
  is_turret (kind (obj w self)) = false ->
  rect (obj (default_animator env self w) self) = rect (obj w self) /\
  view (default_animator env self w) = view w.
Proof.
  intros Hk. unfold default_animator.
  destruct (kind (obj w self)); simpl in Hk; try discriminate;
    rewrite ?alternating_rect; done.
Qed.

Lemma run_animator_rect (env : Env) (self : nat) (w : World) :
  is_turret (kind (obj w self)) = false ->
  rect (obj (run_animator env self w) self) = rect (obj w self) /\
  view (run_animator env self w) = view w.
Proof.
  intros Hk. unfold run_animator.
  destruct (animator_func (obj w self)) as [|c|c|n f fmt].
  - by apply default_animator_rect.
  - unfold damaged_animator.
    set (w1 := upd self _ w).
    assert (Hk1 : kind (obj w1 self) = kind (obj w self))
      by (subst w1; by rewrite (obj_upd_field kind)).
    assert (Hr1 : rect (obj w1 self) = rect (obj w self))
      by (subst w1; by rewrite (obj_upd_field rect)).
    set (w2 := if decide _ then _ else _).
    assert (H2 : rect (obj w2 self) = rect (obj w self) /\ view w2 = view w).
    { subst w2. destruct (decide _).
      - rewrite (obj_upd_field rect) by done. done.
      - rewrite <- Hr1. change (view w) with (view w1).
        apply default_animator_rect. by rewrite Hk1. }
    destruct (c - 1 <=? 0); [|done].
    rewrite (obj_upd_field rect) by done. done.
  - unfold destroyed_animator.
    set (w1 := upd self _ w).
    assert (Hk1 : kind (obj w1 self) = kind (obj w self))
      by (subst w1; by rewrite (obj_upd_field kind)).
    assert (Hr1 : rect (obj w1 self) = rect (obj w self))
      by (subst w1; by rewrite (obj_upd_field rect)).
    destruct ((c + 1) `div` 3 <=? 2).
    + rewrite (obj_upd_field rect) by done. done.
    + unfold after_destroyed_func. rewrite Hk1.
      destruct (kind (obj w self)); simpl in Hk; try discriminate;
        rewrite obj_remove_sprite_safely, remove_sprite_safely_view; done.
  - by rewrite alternating_rect.
Qed.

Lemma handle_done_loop_cases (l : list nat) (w : World) :
  handle_done_loop l w = w \/ handle_done_loop l w = winner w.
Proof.
  induction l as [|s l IH]; simpl; [by right|].
  destruct (_ && _); [by left | exact IH].
Qed.

Lemma handle_done_frame (w : World) :
  g_heap (handle_done w) = g_heap w /\ view (handle_done w) = view w /\
  g_next_id (handle_done w) = g_next_id w /\ frame (handle_done w) = frame w.
Proof.
  unfold handle_done.
  destruct (handle_done_loop_cases (sprites w) w) as [-> | ->]; done.
Qed.

Lemma obj_heap (w w' : World) (i : nat) :
  g_heap w' = g_heap w -> obj w' i = obj w i.
Proof. unfold obj. by intros ->. Qed.

Lemma allocated_heap (w w' : World) (i : nat) :
  g_heap w' = g_heap w -> allocated w' i <-> allocated w i.
Proof. unfold allocated. by intros ->. Qed.

Lemma Player_loop_func_rect (env : Env) (keys : Keys) (p : nat) (w : World) :
  allocated w p -> (p < g_next_id w)%nat ->
  let w' := Player_loop_func env keys p w in
  (exists r, rw r = rw (rect (obj w p)) /\ rh r = rh (rect (obj w p)) /\
             rect (obj w' p) = clamp_ip (view w) r) /\
  view w' = view w /\ kind (obj w' p) = kind (obj w p).
Proof.
  intros Ha Hid. unfold Player_loop_func.
  set (w1 := if ry (view w) >=? TILE_HEIGHT then _ else _).
  assert (H1 : allocated w1 p /\ view w1 = view w /\ g_next_id w1 = g_next_id w /\
               rw (rect (obj w1 p)) = rw (rect (obj w p)) /\
               rh (rect (obj w1 p)) = rh (rect (obj w p)) /\
               kind (obj w1 p) = kind (obj w p)).
  { subst w1. destruct (ry (view w) >=? TILE_HEIGHT).
    - rewrite allocated_upd, obj_upd_eq by done. done.
    - set (w0 := if red_alert (obj w p) then _ else _).
      assert (H0 : allocated w0 p /\ view w0 = view w /\ g_next_id w0 = g_next_id w /\
                   rect (obj w0 p) = rect (obj w p) /\ kind (obj w0 p) = kind (obj w p)).
      { subst w0. destruct (red_alert (obj w p)); [done|].
        rewrite allocated_upd, (obj_upd_field rect), (obj_upd_field kind) by done. done. }
      destruct H0 as (? & ? & ? & Hr & Hk).
      destruct (handle_done_frame w0) as (Hh & Hv & Hn & _).
      rewrite (allocated_heap _ _ _ Hh), (obj_heap _ _ _ Hh), Hv, Hn, Hr, Hk. done. }
  destruct H1 as (Ha1 & Hv1 & Hn1 & Hw1 & Hh1 & Hk1).
  set (w2 := upd p _ w1).
  assert (H2 : (exists r, rw r = rw (rect (obj w p)) /\ rh r = rh (rect (obj w p)) /\
                          rect (obj w2 p) = clamp_ip (view w) r) /\
               view w2 = view w /\ kind (obj w2 p) = kind (obj w p) /\
               g_next_id w2 = g_next_id w).
  { subst w2. rewrite obj_upd_eq by done. simpl. rewrite Hv1, Hk1.
    split_and!; try done. eexists. split_and!; [| | reflexivity]; simpl; done. }
  destruct H2 as (Hr2 & Hv2 & Hk2 & Hn2).
  destruct (_ && _); [|done].
  match goal with |- context [Artillery_init ?e ?s ?pos ?a ?sp ?n ?d ?w] =>
    destruct (Artillery_init_frame e s pos a sp n d w) as (_ & Hv & _ & Ho) end.
  change (obj (play_wav ?n ?a ?w) ?i) with (obj w i).
  change (view (play_wav ?n ?a ?w)) with (view w).
  rewrite Ho, Hv by lia. done.
Qed.

(** C9. After the player's [loop_func] its rectangle lies entirely inside
    the view; the animator does not move it, so the off-board test of
    [constrain_sprites] is false and the bounds check leaves the world,
    the player included, as it is. The player's rectangle fits into the
    view, as its 26 by 31 shape does into the 240 by 240 screen. *)
Theorem player_stays_on_board (env : Env) (keys : Keys) (p : nat) (w : World) :
  allocated w p -> (p < g_next_id w)%nat -> kind (obj w p) = Player ->
  0 <= rw (rect (obj w p)) <= rw (view w) ->
  0 <= rh (rect (obj w p)) <= rh (view w) ->
  let w1 := loop_func env keys p w in
  let w2 := run_animator env p w1 in
  inside (rect (obj w1 p)) (view w1) /\
  off_board (rect (obj w2 p)) (view w2) = false /\
  constrain_sprites p w2 = w2.
Proof.
  intros Ha Hid Hk Hw Hh w1 w2.
  destruct (Player_loop_func_rect env keys p w Ha Hid) as ((r & Hrw & Hrh & Hr) & Hv & Hk1).
  assert (Hl : w1 = Player_loop_func env keys p w)
    by (subst w1; unfold loop_func; by rewrite Hk).
  rewrite <- Hl in Hr, Hv, Hk1.
  assert (Hin : inside (rect (obj w1 p)) (view w1)).
  { rewrite Hr, Hv. apply clamp_ip_inside; lia. }
  destruct (run_animator_rect env p w1) as (Hr2 & Hv2); [by rewrite Hk1, Hk|].
  fold w2 in Hr2, Hv2.
  assert (Hoff : off_board (rect (obj w2 p)) (view w2) = false).
  { rewrite Hr2, Hv2. apply inside_on_board; [|done]. rewrite Hr. simpl. lia. }
  split_and!; [done | done |].
  unfold constrain_sprites. by rewrite Hoff.
Qed.

(** ** Groups *)

(** Every sprite leaves [SuperSprite.__init__] with the groups of its group
    names, and the classes of the game are attackable by the other
    faction. *)
Lemma SuperSprite_init_synced (k : Kind) (t : option Tile) (pos : option (Z * Z))
    (w : World) :
  synced (obj (SuperSprite_init k t pos w).2 (g_next_id w)) /\
  kind (obj (SuperSprite_init k t pos w).2 (g_next_id w)) = k.
Proof.
  unfold SuperSprite_init, synced, obj. cbn [snd g_heap with_sprites with_next_id with_heap].
  destruct t; cbn [g_heap with_clayer]; rewrite lookup_total_insert_eq; done.
Qed.

Lemma classes_opposed (k : Kind) :
  match k with
  | Artillery _ group agroup _ _ _ => agroup <> group
  | _ => True
  end -> opposed k.
Proof. unfold opposed. destruct k; simpl; done. Qed.

Lemma Artillery_init_obj (env : Env) (shooter : nat) (pos : Z * Z)
    (angle : Angle) (speed : Z) (name : string) (damage : Z) (w : World) :
  let s := obj w shooter in
  let b := obj (Artillery_init env shooter pos angle speed name damage w) (g_next_id w) in
  kind b = Artillery name (default_group_name (kind s)) (default_agroup_name (kind s))
             damage angle speed /\
  groups b = string2groups (default_group_name (kind s)) /\
  agroups b = string2groups (default_agroup_name (kind s)) /\
  hitcount b = 1 /\ invincible b = false /\ animator_func b = DefaultAnimator.
Proof.
  unfold Artillery_init, SuperSprite_init. simpl.
  rewrite obj_upd_eq.
  - unfold obj. simpl. rewrite lookup_total_insert_eq. done.
  - unfold allocated. simpl. rewrite lookup_insert_eq. eauto.
Qed.

Lemma string2groups_disjoint (x y : string) :
  x <> y -> string2groups x ∩ string2groups y = ∅.
Proof.
  intros Hne. unfold string2groups. apply elem_of_equiv_empty_L. intros z Hz.
  apply elem_of_intersection in Hz as [Hx Hy].
  apply elem_of_singleton in Hx, Hy. congruence.
Qed.

Lemma no_hit_disjoint (w : World) (s b : nat) :
  agroups (obj w s) ∩ groups (obj w b) = ∅ -> hits w s b = false.
Proof.
  intros H. unfold hits. rewrite (bool_decide_eq_false_2 (_ ≠ ∅)) by (by intros ?).
  by rewrite andb_false_r.
Qed.

(** C10. A projectile is created with exactly the group and the attackable
    group of its shooter; hence no hit is dispatched between it and an
    actor [b] of the shooter's own faction, in either direction, whatever
    the shooter, position, angle, speed, image and damage. *)
Theorem no_friendly_fire (env : Env) (shooter b : nat) (pos : Z * Z)
    (angle : Angle) (speed : Z) (name : string) (damage : Z) (w : World) :
  (b < g_next_id w)%nat ->
  synced (obj w b) -> opposed (kind (obj w b)) -> opposed (kind (obj w shooter)) ->
  default_group_name (kind (obj w b)) = default_group_name (kind (obj w shooter)) ->
  let w' := Artillery_init env shooter pos angle speed name damage w in
  let p := g_next_id w in
  default_group_name (kind (obj w' p)) = default_group_name (kind (obj w shooter)) /\
  default_agroup_name (kind (obj w' p)) = default_agroup_name (kind (obj w shooter)) /\
  synced (obj w' p) /\ opposed (kind (obj w' p)) /\
  hits w' p b = false /\ hits w' b p = false.
Proof.
  intros Hb [Hg Ha] Hob Hos Hsame w' p.
  destruct (Artillery_init_obj env shooter pos angle speed name damage w)
    as (Hk & Hpg & Hpa & _).
  fold w' p in Hk, Hpg, Hpa.
  destruct (Artillery_init_frame env shooter pos angle speed name damage w)
    as (_ & _ & _ & Ho).
  fold w' in Ho. specialize (Ho b ltac:(lia)).
  assert (Hkg : default_group_name (kind (obj w' p))
                = default_group_name (kind (obj w shooter))) by (by rewrite Hk).
  assert (Hka : default_agroup_name (kind (obj w' p))
                = default_agroup_name (kind (obj w shooter))) by (by rewrite Hk).
  split_and!; try done.
  - split; [by rewrite Hkg | by rewrite Hka].
  - unfold opposed. by rewrite Hkg, Hka.
  - apply no_hit_disjoint. rewrite Hpa, Ho, Hg, Hsame.
    by apply string2groups_disjoint.
  - apply no_hit_disjoint. rewrite Hpg, Ho, Ha, <- Hsame.
    by apply string2groups_disjoint.
Qed.

(** ** Pause *)



(** ** Screen transitions *)

Lemma foldl_vid {A} (f : World -> A -> World) (l : list A) (w : World) :
  (forall w x, next_vid (f w x) = next_vid w) ->
  next_vid (foldl f w l) = next_vid w.
Proof.
  intros Hf. revert w. induction l as [|x l IH]; intros w; simpl; [done|].
  by rewrite IH, Hf.
Qed.

Lemma remove_sprite_safely_vid (self : nat) (w : World) :
  next_vid (remove_sprite_safely self w) = next_vid w.
Proof. unfold remove_sprite_safely. by destruct (list_remove _ _). Qed.

Lemma codes_data_vid (n : Z) (fnc : Tile -> World -> World) (t : Tile) (w : World) :
  codes_data n = Some fnc -> next_vid (fnc t w) = next_vid w.
Proof.
  unfold codes_data. intros H.
  repeat case_match; simplify_eq; reflexivity.
Qed.

Lemma run_codes_vid (x1 y1 wd ht : Z) (w : World) :
  next_vid (run_codes x1 y1 wd ht w) = next_vid w.
Proof.
  unfold run_codes. apply foldl_vid. intros w0 y.
  destruct (py_get (clayer w0) y); [|done].
  apply foldl_vid. intros w1 x. unfold run_code.
  destruct (_ ≫= _); [|done]. destruct (codes_data z) eqn:E; [|done].
  by eapply codes_data_vid.
Qed.

Lemma pre_loop_vid (w : World) : next_vid (pre_loop w) = next_vid w.
Proof. unfold pre_loop. by rewrite run_codes_vid. Qed.

Lemma Artillery_init_vid (env : Env) (shooter : nat) (pos : Z * Z)
    (angle : Angle) (speed : Z) (name : string) (damage : Z) (w : World) :
  next_vid (Artillery_init env shooter pos angle speed name damage w) = next_vid w.
Proof. reflexivity. Qed.

Lemma after_destroyed_func_vid (self : nat) (w : World) :
  next_vid (after_destroyed_func self w) = next_vid w.
Proof.
  unfold after_destroyed_func.
  destruct (kind _); try done; apply remove_sprite_safely_vid.
Qed.

Lemma default_animator_vid (env : Env) (self : nat) (w : World) :
  next_vid (default_animator env self w) = next_vid w.
Proof. unfold default_animator. repeat case_match; reflexivity. Qed.

Lemma run_animator_vid (env : Env) (self : nat) (w : World) :
  next_vid (run_animator env self w) = next_vid w.
Proof.
  unfold run_animator. destruct (animator_func _); try done.
  - apply default_animator_vid.
  - unfold damaged_animator.
    assert (forall c w1, next_vid (if decide (c `mod` 3 = 0)
                 then upd self (with_image BlankImage) w1
                 else default_animator env self w1) = next_vid w1) as H.
    { intros. destruct (decide _); [done | apply default_animator_vid]. }
    destruct (_ <=? _); simpl; by rewrite H.
  - unfold destroyed_animator. destruct (_ <=? _); [done|].
    by rewrite after_destroyed_func_vid.
Qed.

Lemma constrain_sprites_vid (self : nat) (w : World) :
  next_vid (constrain_sprites self w) = next_vid w.
Proof.
  unfold constrain_sprites. destruct (off_board _ _); [|done].
  apply remove_sprite_safely_vid.
Qed.

(** Only the player's [loop_func] touches [next_vid]. *)
Lemma loop_func_vid (env : Env) (keys : Keys) (self : nat) (w : World) :
  kind (obj w self) <> Player ->
  next_vid (loop_func env keys self w) = next_vid w.
Proof.
  intros Hk. unfold loop_func. destruct (kind (obj w self)); try done.
  - unfold EnemyHeli_loop_func. by destruct (_ && _).
  - unfold GunTurret_loop_func. by destruct (_ && _).
  - unfold GunTurret_loop_func. by destruct (_ && _).
Qed.

Lemma handle_done_loop_spec (l : list nat) (w : World) :
  ((forall s, s ∈ l -> default_group_name (kind (obj w s)) = "enemy" ->
               invincible (obj w s) = true) ->
   handle_done_loop l w = winner w) /\
  ((exists s, s ∈ l /\ default_group_name (kind (obj w s)) = "enemy" /\
              invincible (obj w s) = false) ->
   handle_done_loop l w = w).
Proof.
  induction l as [|s l [IH1 IH2]]; simpl.
  - split; [done | intros (s & Hs & _); by apply elem_of_nil in Hs].
  - destruct (bool_decide _ && negb _) eqn:E.
    + apply andb_true_iff in E as [Eg Ei]. apply bool_decide_eq_true in Eg.
      apply negb_true_iff in Ei. split; [|done].
      intros H. rewrite (H s) in Ei; [done | left | done].
    + split.
      * intros H. apply IH1. intros s' Hs'. apply H. by right.
      * intros (s' & Hs' & Hg & Hi). apply IH2.
        apply elem_of_cons in Hs' as [-> | Hs']; [|by exists s'].
        rewrite (bool_decide_eq_true_2 _ Hg), Hi in E. done.
Qed.

Lemma level_done_dec (w : World) :
  level_done w \/
  exists s, s ∈ sprites w /\ default_group_name (kind (obj w s)) = "enemy" /\
            invincible (obj w s) = false.
Proof.
  unfold level_done. induction (sprites w) as [|s l IH].
  - left. intros s Hs. by apply elem_of_nil in Hs.
  - destruct IH as [IH | (s' & Hs' & H)]; [|right; exists s'; split; [by right | done]].
    destruct (decide (default_group_name (kind (obj w s)) = "enemy")) as [Hg|Hg];
      [destruct (invincible (obj w s)) eqn:Hi|].
    + left. intros s' Hs'. apply elem_of_cons in Hs' as [-> | Hs']; auto.
    + right. exists s. split; [left | done].
    + left. intros s' Hs'. apply elem_of_cons in Hs' as [-> | Hs']; [done | auto].
Qed.

Lemma Player_loop_func_next_vid (env : Env) (keys : Keys) (p : nat) (w : World) :
  next_vid (Player_loop_func env keys p w)
  = if ry (view w) >=? TILE_HEIGHT then next_vid w
    else next_vid (handle_done
                     (if red_alert (obj w p) then w
                      else upd p (with_red_alert true)
                             (play_wav "red_alert.wav" [-1] w))).
Proof.
  unfold Player_loop_func. cbv zeta.
  destruct (K_SPACE keys && _); destruct (ry (view w) >=? _); reflexivity.
Qed.

(** The player's update sets [next_vid] exactly through [handle_done]. *)
Lemma Player_loop_func_vid (env : Env) (keys : Keys) (p : nat) (w : World) :
  (ry (view w) < TILE_HEIGHT -> level_done w ->
   next_vid (Player_loop_func env keys p w) = Some WinnerTilevid) /\
  (ry (view w) >= TILE_HEIGHT ->
   next_vid (Player_loop_func env keys p w) = next_vid w) /\
  ((exists s, s ∈ sprites w /\ default_group_name (kind (obj w s)) = "enemy" /\
              invincible (obj w s) = false) ->
   next_vid (Player_loop_func env keys p w) = next_vid w).
Proof.
  rewrite Player_loop_func_next_vid.
  set (w0 := if red_alert (obj w p) then _ else _).
  assert (H0 : sprites w0 = sprites w /\ next_vid w0 = next_vid w /\
               forall s, kind (obj w0 s) = kind (obj w s) /\
                         invincible (obj w0 s) = invincible (obj w s)).
  { subst w0. destruct (red_alert (obj w p)); [done|]. split_and!; try done.
    intros s. by rewrite (obj_upd_field kind), (obj_upd_field invincible). }
  destruct H0 as (Hs0 & Hv0 & Ho0).
  destruct (handle_done_loop_spec (sprites w0) w0) as [Hwin Hstay].
  destruct (ry (view w) >=? TILE_HEIGHT) eqn:E.
  - rewrite Z.geb_leb in E. apply Z.leb_le in E. split_and!; [lia | done | done].
  - rewrite Z.geb_leb in E. apply Z.leb_gt in E. split_and!; [| lia |].
    + intros _ Hd. unfold handle_done. rewrite Hwin; [done|].
      intros s Hs Hg. destruct (Ho0 s) as [Hk Hi]. rewrite Hi.
      apply Hd; [by rewrite <- Hs0 | by rewrite <- Hk].
    + intros (s & Hs & Hg & Hi). unfold handle_done. rewrite Hstay; [done|].
      exists s. destruct (Ho0 s) as [Hk Hi']. rewrite Hs0, Hk, Hi'. done.
Qed.

Lemma sprite_loop_vid (env : Env) (keys : Keys) (s : nat) (w : World) :
  next_vid (sprite_loop env keys s w) = next_vid (loop_func env keys s w).
Proof. unfold sprite_loop. by rewrite constrain_sprites_vid, run_animator_vid. Qed.

Lemma damaged_func_vid (self : nat) (w : World) :
  next_vid (damaged_func self w) = next_vid w.
Proof. unfold damaged_func, create_damaged_animator. by destruct (decide _). Qed.

Lemma destroyed_func_vid (self : nat) (w : World) :
  next_vid (destroyed_func self w)
  = match kind (obj w self) with
    | Player => Some GameOverTilevid
    | _ => next_vid w
    end.
Proof.
  unfold destroyed_func. destruct (kind (obj w self)); try done.
  apply after_destroyed_func_vid.
Qed.

Lemma hit_func_vid (self hitee : nat) (w : World) :
  next_vid (hit_func self hitee w) = next_vid w \/
  next_vid (hit_func self hitee w) = Some GameOverTilevid.
Proof.
  unfold hit_func. destruct (_ || _); [by left|].
  destruct (_ >? _); [left; by rewrite damaged_func_vid|].
  rewrite destroyed_func_vid. destruct (kind _); auto.
Qed.

Lemma hit_pass_vid (l : list (nat * nat)) (w : World) :
  next_vid (hit_pass l w) = next_vid w \/
  next_vid (hit_pass l w) = Some GameOverTilevid.
Proof.
  revert w. induction l as [|[s b] l IH]; intros w; simpl; [by left|].
  destruct (IH (sprite_hit w (s, b))) as [-> | ->]; [|by right].
  unfold sprite_hit. simpl. destruct (hits w s b); [apply hit_func_vid | by left].
Qed.

Lemma hit_pass_game_over (l : list (nat * nat)) (w : World) :
  next_vid w = Some GameOverTilevid ->
  next_vid (hit_pass l w) = Some GameOverTilevid.
Proof. intros H. destruct (hit_pass_vid l w) as [-> | ->]; done. Qed.

Lemma dispatch_events_vid (l : list Event) (w : World) :
  next_vid (foldl dispatch_event w l) = next_vid w.
Proof. apply foldl_vid. intros w0 [|[]|]; reflexivity. Qed.

Lemma pre_loop_events_vid (inp : Input) (w : World) :
  next_vid (pre_loop (events_done inp w)) = next_vid w.
Proof. unfold events_done. by rewrite pre_loop_vid, dispatch_events_vid. Qed.

Lemma run_post_frame_tasks_vid (w : World) :
  next_vid (run_post_frame_tasks w) = next_vid w.
Proof. unfold run_post_frame_tasks. apply foldl_vid. by intros ? []. Qed.

Lemma loop_vid (env : Env) (keys : Keys) (w : World) :
  next_vid (loop env keys w)
  = next_vid (loop_spritehits (loop_tilehits (loop_sprites env keys w))).
Proof. unfold loop. cbv zeta. by apply foldl_vid. Qed.

Lemma with_effects_vid (e : list Effect) (w : World) :
  next_vid (with_effects e w) = next_vid w.
Proof. reflexivity. Qed.

Lemma with_frame_vid (n : Z) (w : World) : next_vid (with_frame n w) = next_vid w.
Proof. reflexivity. Qed.

Lemma paint_vid (w : World) : next_vid (paint w) = next_vid w.
Proof. reflexivity. Qed.

Lemma post_paint_vid (w : World) : next_vid (post_paint w) = next_vid w.
Proof. reflexivity. Qed.

Lemma unpaused_frame_vid (env : Env) (inp : Input) (w : World) :
  next_vid (unpaused_frame env inp w)
  = next_vid (loop env (keys inp) (pre_loop w)).
Proof.
  unfold unpaused_frame. cbv zeta.
  by rewrite with_frame_vid, with_effects_vid, run_post_frame_tasks_vid,
    post_paint_vid, paint_vid, with_effects_vid.
Qed.

Lemma frame_step_vid (env : Env) (inp : Input) (w : World) :
  next_vid (frame_step env inp w)
  = if pause (events_done inp w) then next_vid w
    else next_vid (loop_spritehits (sprites_done env inp w)).
Proof.
  unfold frame_step. cbv zeta. fold (events_done inp w).
  rewrite with_effects_vid.
  destruct (pause (events_done inp w)).
  - unfold events_done. by rewrite dispatch_events_vid.
  - by rewrite unpaused_frame_vid, loop_vid.
Qed.

Lemma run_loop_returns (env : Env) (inp : Input) (rest : list Input) (w : World)
    (v : Screen) :
  quit w = false -> next_vid (frame_step env inp w) = Some v ->
  run_loop env (inp :: rest) w = Returned (Some v) (frame_step env inp w).
Proof. intros Hq Hv. cbn [run_loop]. by rewrite Hq, Hv. Qed.

Lemma loop_sprites_winner (env : Env) (keys : Keys) (l : list nat) (w : World) :
  next_vid w <> Some WinnerTilevid ->
  next_vid (foldl (fun w s => sprite_loop env keys s w) w l) = Some WinnerTilevid ->
  exists l1 q l2, l = l1 ++ q :: l2 /\
    let wq := foldl (fun w s => sprite_loop env keys s w) w l1 in
    kind (obj wq q) = Player /\ ry (view wq) < TILE_HEIGHT /\ level_done wq.
Proof.
  revert w. induction l as [|s l IH]; intros w Hw Hf; simpl in Hf; [done|].
  destruct (decide (next_vid (sprite_loop env keys s w) = Some WinnerTilevid)) as [Hs|Hs].
  - exists [], s, l. split; [done|]. simpl.
    rewrite sprite_loop_vid in Hs.
    destruct (decide (kind (obj w s) = Player)) as [Hk|Hk];
      [|by rewrite loop_func_vid in Hs].
    unfold loop_func in Hs. rewrite Hk in Hs.
    destruct (Player_loop_func_vid env keys s w) as (_ & Hhigh & Hlive).
    split; [done|]. split.
    + destruct (Z_lt_ge_dec (ry (view w)) TILE_HEIGHT) as [|Hge]; [done|].
      rewrite Hhigh in Hs by done. done.
    + destruct (level_done_dec w) as [|Hl]; [done|].
      rewrite Hlive in Hs by done. done.
  - destruct (IH _ Hs Hf) as (l1 & q & l2 & -> & H).
    exists (s :: l1), q, l2. split; [done | exact H].
Qed.

Lemma hit_pass_app (l1 l2 : list (nat * nat)) (w : World) :
  hit_pass (l1 ++ l2) w = hit_pass l2 (hit_pass l1 w).
Proof. unfold hit_pass. apply foldl_app. Qed.

Lemma hit_func_lethal_player (p a : nat) (w : World) :
  allocated w p -> kind (obj w p) = Player ->
  invincible (obj w p) = false -> invincible (obj w a) = false ->
  hitcount (obj w p) - collision_damage (kind (obj w a)) <= 0 ->
  animator_func (obj (hit_func p a w) p) = DestroyedAnimator 0 /\
  next_vid (hit_func p a w) = Some GameOverTilevid.
Proof.
  intros Ha Hk Hp Hi Hhp. unfold hit_func. rewrite Hp, Hi.
  cbn [orb]. cbv zeta.
  set (w1 := upd p _ w).
  assert (H1 : obj w1 p = with_hitcount
                 (hitcount (obj w p) - collision_damage (kind (obj w a))) (obj w p))
    by (subst w1; by rewrite obj_upd_eq).
  assert (Ha1 : allocated w1 p) by (by apply allocated_upd).
  rewrite H1. cbn [hitcount with_hitcount]. rewrite gtb_nonpos by done.
  unfold destroyed_func. rewrite H1. cbn [kind with_hitcount]. rewrite Hk.
  unfold game_over. change (obj (with_next_vid ?v ?w) ?i) with (obj w i).
  by rewrite SuperSprite_destroyed_func_obj.
Qed.

(** C3 (amended). When a hit of the collision pass brings the player's
    hit-points to 0 or below, the player enters the Destroyed state with
    its counter at 0 and that same hit installs the game-over screen;
    [run] returns it at the end of that very frame, whatever the rest of
    the pass does, without waiting for the explosion. *)
Theorem player_destroyed_game_over (env : Env) (inp : Input) (rest : list Input)
    (w : World) (l1 l2 : list (nat * nat)) (p a : nat) :
  quit w = false -> pause (events_done inp w) = false ->
  let w_a := sprites_done env inp w in
  (s ← sprites w_a; b ← sprites w_a; [(s, b)]) = l1 ++ (p, a) :: l2 ->
  let w_b := hit_pass l1 w_a in
  hits w_b p a = true ->
  allocated w_b p -> kind (obj w_b p) = Player ->
  invincible (obj w_b p) = false -> invincible (obj w_b a) = false ->
  hitcount (obj w_b p) - collision_damage (kind (obj w_b a)) <= 0 ->
  animator_func (obj (hit_func p a w_b) p) = DestroyedAnimator 0 /\
  next_vid (hit_func p a w_b) = Some GameOverTilevid /\
  run_loop env (inp :: rest) w
  = Returned (Some GameOverTilevid) (frame_step env inp w).
Proof.
  intros Hq Hp w_a Hl w_b Hh Ha Hk Hip Hia Hhp.
  destruct (hit_func_lethal_player p a w_b Ha Hk Hip Hia Hhp) as [Han Hv].
  split_and!; [done | done |].
  apply run_loop_returns; [done|].
  rewrite frame_step_vid, Hp. unfold loop_spritehits. fold w_a. cbv zeta.
  rewrite Hl, hit_pass_app. fold w_b.
  change (hit_pass ((p, a) :: l2) w_b) with (hit_pass l2 (sprite_hit w_b (p, a))).
  apply hit_pass_game_over. unfold sprite_hit. cbn [fst snd]. by rewrite Hh.
Qed.

(** C4. The player's update installs the winner screen when the view is
    above the first tile row and every enemy sprite left in the collection
    is invincible; it leaves [next_vid] alone while a non-invincible enemy
    is live and while the view is still scrolling. A frame that ends with
    the winner screen installed contains a player update at which both
    conditions held, and [run] returns the screen at the end of that frame:
    there is no later frame in which the transition could fire again. *)
Theorem winner_transition (env : Env) (inp : Input) (rest : list Input)
    (p : nat) (w : World) :
  (ry (view w) < TILE_HEIGHT -> level_done w ->
   next_vid (Player_loop_func env (keys inp) p w) = Some WinnerTilevid) /\
  ((exists s, s ∈ sprites w /\ default_group_name (kind (obj w s)) = "enemy" /\
              invincible (obj w s) = false) ->
   next_vid (Player_loop_func env (keys inp) p w) = next_vid w) /\
  (ry (view w) >= TILE_HEIGHT ->
   next_vid (Player_loop_func env (keys inp) p w) = next_vid w) /\
  (quit w = false -> next_vid w = None ->
   next_vid (frame_step env inp w) = Some WinnerTilevid ->
   run_loop env (inp :: rest) w
   = Returned (Some WinnerTilevid) (frame_step env inp w) /\
   exists l1 q l2,
     sprites (pre_loop (events_done inp w)) = l1 ++ q :: l2 /\
     let wq := foldl (fun w s => sprite_loop env (keys inp) s w)
                 (pre_loop (events_done inp w)) l1 in
     kind (obj wq q) = Player /\ ry (view wq) < TILE_HEIGHT /\ level_done wq).
Proof.
  destruct (Player_loop_func_vid env (keys inp) p w) as (H1 & H2 & H3).
  split_and!; [done | done | done |].
  intros Hq Hn Hf. split; [by apply run_loop_returns|].
  rewrite frame_step_vid in Hf.
  destruct (pause (events_done inp w)); [congruence|].
  unfold loop_spritehits in Hf. cbv zeta in Hf.
  destruct (hit_pass_vid (s ← sprites (sprites_done env inp w);
                          b ← sprites (sprites_done env inp w); [(s, b)])
              (sprites_done env inp w)) as [He | He];
    rewrite He in Hf; [|done].
  unfold sprites_done, loop_tilehits, loop_sprites in Hf.
  apply loop_sprites_winner in Hf; [exact Hf|].
  rewrite pre_loop_events_vid, Hn. done.
Qed.

(** ** The scenarios *)

(** The explosion shows its three pictures over the first eight calls of
    the animator; the ninth call is the one that reaches
    [after_destroyed_func]. *)
Lemma explosion_lasts (count : Z) :
  0 <= count -> ((count + 1) `div` 3 <=? 2) = true <-> count < 8.
Proof.
  intros H. rewrite Z.leb_le. split; intros H1.
  - destruct (Z_lt_ge_dec count 8) as [|Hge]; [done|].
    assert (3 <= (count + 1) `div` 3) by (apply Z.div_le_lower_bound; lia). lia.
  - assert ((count + 1) `div` 3 < 3) by (apply Z.div_lt_upper_bound; lia). lia.
Qed.

Lemma remove_sprite_safely_absent_witness :
  (7%nat ∉ sprites duel) /\
  list_remove 7 (sprites duel) = None /\ remove_sprite_safely 7 duel = duel.
Proof.
  assert (H : 7%nat ∉ sprites duel).
  { apply (bool_decide_unpack _). vm_compute. exact I. }
  split; [exact H | exact (remove_sprite_safely_absent 7 duel H)].
Defined.



Lemma hit_func_damage_witness :
  allocated duel 0 /\ invincible (obj duel 0) = false /\
  invincible (obj duel 1) = false /\
  hitcount (obj (hit_func 0 1 duel) 0)
  = hitcount (obj duel 0) - collision_damage (kind (obj duel 1)) /\
  animator_func (obj (hit_func 0 1 duel) 0)
  = DamagedAnimator (invincible_time (kind (obj duel 0))).
Proof.
  assert (Ha : allocated duel 0) by (vm_compute; eauto).
  assert (H0 : invincible (obj duel 0) = false) by (vm_compute; reflexivity).
  assert (H1 : invincible (obj duel 1) = false) by (vm_compute; reflexivity).
  destruct (hit_func_damage duel 0 1 Ha H0 H1) as (Hhp & Hdam & _).
  split_and!; [exact Ha | exact H0 | exact H1 | exact Hhp |].
  apply Hdam. vm_compute. reflexivity.
Defined.

(** C2, as the specification states it, fails for bullets: the player's
    bullet, hit by the helicopter it runs into, drops to 0 hit-points but
    does not enter the Destroyed state; it is removed from the
    collection. *)
Lemma bullet_hit_keeps_animator :
  invincible (obj duel_with_shot 2) = false /\
  invincible (obj duel_with_shot 1) = false /\
  hits duel_with_shot 2 1 = true /\
  let w' := hit_func 2 1 duel_with_shot in
  hitcount (obj w' 2) <= 0 /\
  is_destroyed (animator_func (obj w' 2)) = false /\
  sprites w' = [0; 1]%nat.
Proof. vm_compute. split_and!; congruence. Qed.

Lemma player_destroyed_game_over_witness :
  animator_func (obj (hit_func 0 1 (hit_pass [(0, 0)%nat]
                        (sprites_done quiet_env idle last_stand))) 0)
  = DestroyedAnimator 0 /\
  run_loop quiet_env [idle] last_stand
  = Returned (Some GameOverTilevid) (frame_step quiet_env idle last_stand).
Proof.
  assert (Ha : allocated (hit_pass [(0, 0)%nat]
                            (sprites_done quiet_env idle last_stand)) 0)
    by (vm_compute; eauto).
  assert (Hhp : hitcount (obj (hit_pass [(0, 0)%nat]
                                 (sprites_done quiet_env idle last_stand)) 0)
                - collision_damage
                    (kind (obj (hit_pass [(0, 0)%nat]
                                  (sprites_done quiet_env idle last_stand)) 1))
                <= 0)
    by (vm_compute; congruence).
  destruct (player_destroyed_game_over quiet_env idle [] last_stand
              [(0, 0)%nat] [(1, 0)%nat; (1, 1)%nat] 0 1
              eq_refl eq_refl eq_refl eq_refl Ha eq_refl eq_refl eq_refl Hhp)
    as (H1 & _ & H3).
  split; [exact H1 | exact H3].
Defined.

(** C3, as the specification states it, fails: the player of [last_stand]
    loses its last hit-point in the first frame, and [run] returns the
    game-over screen at the end of that frame. The destroyed animator has
    not been called once, the player still shows its helicopter and is
    still in the collection. *)
Lemma game_over_before_explosion :
  match run quiet_env [idle] last_stand with
  | Returned (Some GameOverTilevid) w' =>
      frame w' = frame last_stand + 1 /\
      animator_func (obj w' 0) = DestroyedAnimator 0 /\
      image (obj w' 0) = Img "player_helicopter-0" /\
      sprites w' = [0; 1]%nat
  | _ => False
  end.
Proof. vm_compute. split_and!; reflexivity. Qed.

Lemma level_done_forallb (w : World) :
  forallb (fun s => negb (bool_decide (default_group_name (kind (obj w s)) = "enemy"))
                    || invincible (obj w s)) (sprites w) = true ->
  level_done w.
Proof.
  intros H s Hs Hg. rewrite forallb_forall in H.
  specialize (H s (proj1 (list_elem_of_In _ _) Hs)).
  rewrite (bool_decide_eq_true_2 _ Hg) in H. exact H.
Qed.

(** At the summit the player's update installs the winner screen, and the
    frame that contains it ends the level. *)
Lemma winner_transition_witness :
  next_vid (Player_loop_func quiet_env (keys idle) 0
              (pre_loop (events_done idle summit))) = Some WinnerTilevid /\
  run_loop quiet_env [idle] summit
  = Returned (Some WinnerTilevid) (frame_step quiet_env idle summit).
Proof.
  split.
  - apply (proj1 (winner_transition quiet_env idle [] 0
                    (pre_loop (events_done idle summit)))).
    + vm_compute. reflexivity.
    + apply level_done_forallb. vm_compute. reflexivity.
  - apply (proj1 (proj2 (proj2 (proj2
             (winner_transition quiet_env idle [] 0 summit))) eq_refl eq_refl eq_refl)).
Defined.



Lemma tile_block_edges_witness :
  bottom (_rect falling_sprite) < top (t__rect solid_tile) /\
  bottom (rect falling_sprite) > top (t_rect solid_tile) /\
  bottom (rect (tile_block solid_tile falling_sprite)) <= top (t_rect solid_tile).
Proof.
  split_and!; [vm_compute; reflexivity | vm_compute; reflexivity |].
  apply (proj1 (tile_block_edges solid_tile falling_sprite
                  ltac:(vm_compute; congruence) ltac:(vm_compute; congruence)
                  ltac:(vm_compute; congruence) ltac:(vm_compute; congruence)));
    vm_compute; reflexivity.
Defined.

(** The wreck at the summit is at a multiple of its firing period and
    keeps quiet. *)
Lemma wrecked_enemy_holds_fire_witness :
  uptime 1 summit `mod` shot_freq (kind (obj summit 1)) = 0 /\
  sprites (loop_func quiet_env no_keys 1 summit) = sprites summit.
Proof.
  split; [vm_compute; reflexivity|].
  apply (wrecked_enemy_holds_fire quiet_env no_keys 1 summit).
  - vm_compute. reflexivity.
  - vm_compute. congruence.
Defined.

Lemma player_stays_on_board_witness :
  inside (rect (obj (loop_func quiet_env no_keys 0 duel) 0))
         (view (loop_func quiet_env no_keys 0 duel)) /\
  constrain_sprites 0 (run_animator quiet_env 0 (loop_func quiet_env no_keys 0 duel))
  = run_animator quiet_env 0 (loop_func quiet_env no_keys 0 duel).
Proof.
  destruct (player_stays_on_board quiet_env no_keys 0 duel) as (H1 & _ & H3).
  - vm_compute. eauto.
  - vm_compute. lia.
  - vm_compute. reflexivity.
  - vm_compute. split; congruence.
  - vm_compute. split; congruence.
  - split; [exact H1 | exact H3].
Defined.

(** A bullet of the player and the player itself. *)
Lemma no_friendly_fire_witness :
  hits (Artillery_init quiet_env 0 (87, 190) HalfPi 60 "shot" 1 duel) 2 0 = false /\
  hits (Artillery_init quiet_env 0 (87, 190) HalfPi 60 "shot" 1 duel) 0 2 = false.
Proof.
  destruct (no_friendly_fire quiet_env 0 0 (87, 190) HalfPi 60 "shot" 1 duel)
    as (_ & _ & _ & _ & H1 & H2).
  - vm_compute. lia.
  - split; vm_compute; reflexivity.
  - vm_compute. congruence.
  - vm_compute. congruence.
  - reflexivity.
  - split; [exact H1 | exact H2].
Defined.
